(** * The multiplayer lobby server of Unknown Horizons

    A shallow embedding of [horizons/network/server.py]: the session and
    game registries, the dispatch router, the lobby state machine and the
    relay path, together with the properties the specification states about
    them.

    Python objects are shared and mutated in place, so [Player] and [Game]
    objects live in two object tables of the server state and are named by
    references; everything the server writes to the transport is appended to
    an outbox, in order. Handlers run in a state-and-exception monad: a
    Python exception that nothing catches ends the run of the handler and of
    whatever called it. *)

From stdpp Require Import base option list strings gmap.
From Stdlib Require Import ZArith Lia.

(** ** Python exceptions and the handler monad *)

Inductive Exn : Type :=
  | SoftNetworkException (msg : string)
  | AttributeError (msg : string)
  | ValueError (msg : string)
  | TypeError (msg : string).

(** The outcome of running a piece of code from a state: a value and the
    state it leaves, or an exception and the state at the [raise]. *)
Inductive result (S A : Type) : Type :=
  | Ok (a : A) (s : S)
  | Raise (e : Exn) (s : S).
Arguments Ok {S A} a s.
Arguments Raise {S A} e s.

Definition state_of {S A} (r : result S A) : S :=
  match r with Ok _ s => s | Raise _ s => s end.

Definition returns {S A} (r : result S A) : bool :=
  match r with Ok _ _ => true | Raise _ _ => false end.

(** ** The dispatch router ([register_callback], [call_callbacks])

    [self.callbacks] maps an event key to the ordered list of its handlers.
    A handler gets the arguments of the event and may return [None] or a
    boolean. Keys are the names of the internal events and the names of the
    packet classes. *)
Module Router.
Section router.
Context {S A : Type}.

Definition callback : Type := A → S → result S (option bool).

(** The [for callback in self.callbacks[type]] loop, with its accumulator
    [ret]. *)
Fixpoint loop (cbs : list callback) (args : A) (ret : bool) (s : S)
  : result S bool :=
  match cbs with
  | [] => Ok ret s
  | callback :: rest =>
      match callback args s with
      | Raise e s' => Raise e s'
      | Ok tmp s' =>
          let tmp := match tmp with None => true | Some b => b end in
          loop rest args (ret && tmp) s'
      end
  end.

Definition call_callbacks (callbacks : gmap string (list callback))
    (type : string) (args : A) (s : S) : result S (option bool) :=
  match callbacks !! type with
  | None => Ok None s
  | Some cbs =>
      match loop cbs args true s with
      | Ok ret s' => Ok (Some ret) s'
      | Raise e s' => Raise e s'
      end
  end.

Definition register_callback (callbacks : gmap string (list callback))
    (type : string) (cb : callback) (prepend : bool)
  : Exn + gmap string (list callback) :=
  match callbacks !! type with
  | Some l =>
      inr (<[type := if prepend then cb :: l else l ++ [cb]]> callbacks)
  | None => inl (TypeError "Unsupported type")
  end.

(** What firing an event is meant to do, in the words of the design:
    every handler of the list is invoked, in list order, each from the
    state its predecessor left, and the raw results are collected. *)
Fixpoint invoke_all (cbs : list callback) (args : A) (s : S)
  : result S (list (option bool)) :=
  match cbs with
  | [] => Ok [] s
  | callback :: rest =>
      match callback args s with
      | Raise e s' => Raise e s'
      | Ok r s' =>
          match invoke_all rest args s' with
          | Ok rs s'' => Ok (r :: rs) s''
          | Raise e s'' => Raise e s''
          end
      end
  end.

(** A handler that returns [None] counts as [True]. *)
Definition truth (r : option bool) : bool := default true r.

Definition logical_and (rs : list (option bool)) : bool :=
  forallb truth rs.
End router.
Arguments callback : clear implicits.
End Router.

(** ** Packets *)

(** [horizons.network.common.ErrorType]: the two kinds the server uses. *)
Module ErrorType.
Inductive t : Type := NotSet | TerminateGame.
End ErrorType.

(** A message handed to the peer: [S_(player, message)] looks [message] up
    in the player's translation, so the text is determined by the locale
    handle and the message id. A player without a translation (the null
    translation) gets the message id itself, as does a message sent through
    [_error] or [_fatalerror] directly. *)
Record Text : Type := { locale : option string; msgid : string }.

Definition untranslated (message : string) : Text :=
  {| locale := None; msgid := message |}.

(** The packet classes belong to [horizons/network/packets], of which the
    server is a caller: a class has the fields [server.py] reads from its
    packets. *)
Module packets.

(** The packets a client sends. Every packet carries the session id of its
    sender; [cmd] is its class with the fields of the class, and
    [cmd_other] stands for every class [Server.__init__] registers no
    handler for. *)
Module client.
Module cmd_creategame.
Record t : Type := {
  clientversion : Z;
  clientid : string;
  playername : string;
  playercolor : option Z;
  mapname : string;
  maxplayers : Z;
  password : option string;
}.
End cmd_creategame.

Module cmd_listgames.
Record t : Type := {
  clientversion : Z;
  mapname : string;
  maxplayers : Z;
}.
End cmd_listgames.

Module cmd_joingame.
Record t : Type := {
  uuid : nat;
  clientversion : Z;
  clientid : string;
  playername : string;
  playercolor : option Z;
  password : option string;
}.
End cmd_joingame.

Inductive cmd : Type :=
  | cmd_error (errorstr : string)
  | cmd_fatalerror (errorstr : string)
  | cmd_sessionprops (lang : option string)
  | cmd_creategame (p : cmd_creategame.t)
  | cmd_listgames (p : cmd_listgames.t)
  | cmd_joingame (p : cmd_joingame.t)
  | cmd_leavegame
  | cmd_chatmsg (chatmsg : string)
  | cmd_changename (playername : string)
  | cmd_changecolor (playercolor : Z)
  | cmd_preparedgame
  | cmd_toggleready
  | cmd_kickplayer (kicksid : string)
  | cmd_other (classname : string).

Record t : Type := { sid : string; body : cmd }.

(** [packet.__class__], by name. *)
Definition class_of (c : cmd) : string :=
  match c with
  | cmd_error _ => "packets.cmd_error"
  | cmd_fatalerror _ => "packets.cmd_fatalerror"
  | cmd_sessionprops _ => "packets.client.cmd_sessionprops"
  | cmd_creategame _ => "packets.client.cmd_creategame"
  | cmd_listgames _ => "packets.client.cmd_listgames"
  | cmd_joingame _ => "packets.client.cmd_joingame"
  | cmd_leavegame => "packets.client.cmd_leavegame"
  | cmd_chatmsg _ => "packets.client.cmd_chatmsg"
  | cmd_changename _ => "packets.client.cmd_changename"
  | cmd_changecolor _ => "packets.client.cmd_changecolor"
  | cmd_preparedgame => "packets.client.cmd_preparedgame"
  | cmd_toggleready => "packets.client.cmd_toggleready"
  | cmd_kickplayer _ => "packets.client.cmd_kickplayer"
  | cmd_other classname => "other." +:+ classname
  end.
End client.

(** What [packets.unserialize(data, True, protocol)] does with the bytes
    of a receive event, as far as [onreceive] tells the outcomes apart. *)
Inductive parsed : Type :=
  | Parsed (packet : client.t)
  | RaisedSoftNetworkException (e : string)
  | RaisedPacketTooLarge (e : string)
  | RaisedException (e : string).

End packets.

(** ** Players and games *)

Module Player.

(** Modelled from the spec: the class [Player] of
    [horizons/network/common.py], of which [server.py] is a caller; the
    fields are those of the data model ("session id; peer handle; protocol
    version; display name; numeric color; client id; ready flag; prepared
    flag; owning Game reference (nullable); locale handle") and [version],
    which [server.py] reads. The game is held by reference. *)
Record t : Type := {
  peer : nat;
  sid : string;
  protocol : Z;
  version : option Z;
  name : option string;
  color : option Z;
  clientid : option string;
  game : option nat;
  ready : bool;
  prepared : bool;
  gettext : option string;
}.

(** Modelled from the spec: [Player(peer, sid, protocol)], a player "created
    on transport connect": in no game, neither ready nor prepared, with
    the null translation. *)
Definition init (peer : nat) (sid : string) (protocol : Z) : t :=
  {| peer := peer; sid := sid; protocol := protocol; version := None;
     name := None; color := None; clientid := None; game := None;
     ready := false; prepared := false; gettext := None |}.

Definition set_game (g : option nat) (p : t) : t :=
  {| peer := peer p; sid := sid p; protocol := protocol p;
     version := version p; name := name p; color := color p;
     clientid := clientid p; game := g; ready := ready p;
     prepared := prepared p; gettext := gettext p |}.

Definition set_name (n : option string) (p : t) : t :=
  {| peer := peer p; sid := sid p; protocol := protocol p;
     version := version p; name := n; color := color p;
     clientid := clientid p; game := game p; ready := ready p;
     prepared := prepared p; gettext := gettext p |}.

Definition set_color (c : option Z) (p : t) : t :=
  {| peer := peer p; sid := sid p; protocol := protocol p;
     version := version p; name := name p; color := c;
     clientid := clientid p; game := game p; ready := ready p;
     prepared := prepared p; gettext := gettext p |}.

Definition set_ready (b : bool) (p : t) : t :=
  {| peer := peer p; sid := sid p; protocol := protocol p;
     version := version p; name := name p; color := color p;
     clientid := clientid p; game := game p; ready := b;
     prepared := prepared p; gettext := gettext p |}.

Definition set_prepared (b : bool) (p : t) : t :=
  {| peer := peer p; sid := sid p; protocol := protocol p;
     version := version p; name := name p; color := color p;
     clientid := clientid p; game := game p; ready := ready p;
     prepared := b; gettext := gettext p |}.

Definition set_gettext (l : option string) (p : t) : t :=
  {| peer := peer p; sid := sid p; protocol := protocol p;
     version := version p; name := name p; color := color p;
     clientid := clientid p; game := game p; ready := ready p;
     prepared := prepared p; gettext := l |}.

(** Modelled from the spec: [Player.join(game, packet)], the player's side
    of "creator auto-joined" and of a join: the player takes the game and
    the version, name, color and client id of the request, and starts
    neither ready nor prepared. *)
Definition join (g : nat) (clientversion : Z) (playername : string)
    (playercolor : option Z) (clientid : string) (p : t) : t :=
  {| peer := peer p; sid := sid p; protocol := protocol p;
     version := Some clientversion; name := Some playername;
     color := playercolor; clientid := Some clientid; game := Some g;
     ready := false; prepared := false; gettext := gettext p |}.

(** Modelled from the spec: [Player.toggle_ready()], the "ready-toggle". *)
Definition toggle_ready (p : t) : t := set_ready (negb (ready p)) p.

#[global] Instance inhabited : Inhabited t := populate (init 0 "" 0).
End Player.

Module Game.

(** Modelled from the spec: [Game.State], the "States: Open, Prepare,
    Running" of the lobby state machine. *)
Module State.
Inductive t : Type := Open | Prepare | Running.
#[global] Instance eq_dec : EqDecision t.
Proof. solve_decision. Defined.
End State.

(** Modelled from the spec: the class [Game] of
    [horizons/network/common.py], of which [server.py] is a caller; the
    fields are those of the data model ("UUID; creator; ordered list of
    member Players (join order preserved); min/max player counts; optional
    password; map name; ... state") and the counter [playercnt], which
    [onpreparedgame] reads. Players are held by reference. *)
Record t : Type := {
  uuid : nat;
  creator : nat;
  players : list nat;
  playercnt : Z;
  maxplayers : Z;
  password : option string;
  mapname : string;
  state : State.t;
}.

Definition set_state (st : State.t) (g : t) : t :=
  {| uuid := uuid g; creator := creator g; players := players g;
     playercnt := playercnt g; maxplayers := maxplayers g;
     password := password g; mapname := mapname g; state := st |}.

Definition set_players (l : list nat) (n : Z) (g : t) : t :=
  {| uuid := uuid g; creator := creator g; players := l;
     playercnt := n; maxplayers := maxplayers g;
     password := password g; mapname := mapname g; state := state g |}.

(** Modelled from the spec: [Game.is_open()], "Join (Open only)". *)
Definition is_open (g : t) : bool := bool_decide (state g = State.Open).

(** Modelled from the spec: [Game.is_full()], "rejected if the game is
    full": the counter has reached the maximum. *)
Definition is_full (g : t) : bool := (playercnt g =? maxplayers g)%Z.

(** Modelled from the spec: [Game.is_empty()], "a Game with zero members". *)
Definition is_empty (g : t) : bool := (playercnt g =? 0)%Z.

(** Modelled from the spec: [Game.has_password()], "optional password". *)
Definition has_password (g : t) : bool :=
  match password g with Some _ => true | None => false end.

#[global] Instance inhabited : Inhabited t :=
  populate {| uuid := 0; creator := 0; players := []; playercnt := 0;
              maxplayers := 0; password := None; mapname := "";
              state := State.Open |}.
End Game.

(** ** Server packets and the outbox *)

(** What [packets.server.data_gamestate(game)] holds once serialized: the
    game as it is at the time of sending, with its members in join order. *)
Record Snapshot : Type := {
  snap_game : Game.t;
  snap_members : list Player.t;
}.

Module server_packets.
Inductive t : Type :=
  | cmd_ok
  | cmd_error (errorstr : Text) (type : ErrorType.t)
  | cmd_fatalerror (errorstr : Text)
  | cmd_session (sid : string) (minplayers maxplayers maxpacketsize : Z)
  | data_gamestate (game : Snapshot)
  | data_gameslist (games : list Snapshot)
  | cmd_preparegame
  | cmd_startgame
  | cmd_chatmsg (playername : option string) (chatmsg : string)
  | cmd_kickplayer (player : Player.t).
End server_packets.

(** One call into the transport. *)
Inductive Action : Type :=
  | Send (peer : nat) (packet : server_packets.t)
  | SendRaw (peer : nat) (data : list Byte.byte)
  | Disconnect (peer : nat) (later : bool).

(** ** The server state *)

Definition MAX_PEERS : Z := 4095.
Definition CONNECTION_TIMEOUT : Z := 500.
Definition PROTOCOLS : list Z := [0; 1]%Z.

(** [self.capabilities] *)
Definition minplayers : Z := 2.
Definition maxplayers : Z := 8.
Definition maxpacketsize : Z := 2 * 1024 * 1024.

(** The registries of [Server.__init__] ([games], [players], [i18n]), the
    two object tables with the next free reference, what the transport
    knows of each peer ([peer.data], and whether [peer.state] is
    [PEER_STATE_CONNECTED]), and everything sent so far. *)
Record Server : Type := {
  games : list nat;
  players : gmap string nat;
  i18n : gset string;
  player_objs : gmap nat Player.t;
  game_objs : gmap nat Game.t;
  next_ref : nat;
  peer_data : gmap nat string;
  peer_connected : gset nat;
  outbox : list Action;
}.

Definition initial (languages : gset string) : Server :=
  {| games := []; players := ∅; i18n := languages; player_objs := ∅;
     game_objs := ∅; next_ref := 0; peer_data := ∅; peer_connected := ∅;
     outbox := [] |}.

Definition set_games (f : list nat → list nat) (s : Server) : Server :=
  {| games := f (games s); players := players s; i18n := i18n s;
     player_objs := player_objs s; game_objs := game_objs s;
     next_ref := next_ref s; peer_data := peer_data s;
     peer_connected := peer_connected s; outbox := outbox s |}.

Definition set_players (f : gmap string nat → gmap string nat) (s : Server)
  : Server :=
  {| games := games s; players := f (players s); i18n := i18n s;
     player_objs := player_objs s; game_objs := game_objs s;
     next_ref := next_ref s; peer_data := peer_data s;
     peer_connected := peer_connected s; outbox := outbox s |}.

Definition set_player_objs (f : gmap nat Player.t → gmap nat Player.t)
    (s : Server) : Server :=
  {| games := games s; players := players s; i18n := i18n s;
     player_objs := f (player_objs s); game_objs := game_objs s;
     next_ref := next_ref s; peer_data := peer_data s;
     peer_connected := peer_connected s; outbox := outbox s |}.

Definition set_game_objs (f : gmap nat Game.t → gmap nat Game.t)
    (s : Server) : Server :=
  {| games := games s; players := players s; i18n := i18n s;
     player_objs := player_objs s; game_objs := f (game_objs s);
     next_ref := next_ref s; peer_data := peer_data s;
     peer_connected := peer_connected s; outbox := outbox s |}.

Definition set_next_ref (n : nat) (s : Server) : Server :=
  {| games := games s; players := players s; i18n := i18n s;
     player_objs := player_objs s; game_objs := game_objs s;
     next_ref := n; peer_data := peer_data s;
     peer_connected := peer_connected s; outbox := outbox s |}.

Definition set_peer_data (f : gmap nat string → gmap nat string) (s : Server)
  : Server :=
  {| games := games s; players := players s; i18n := i18n s;
     player_objs := player_objs s; game_objs := game_objs s;
     next_ref := next_ref s; peer_data := f (peer_data s);
     peer_connected := peer_connected s; outbox := outbox s |}.

Definition set_peer_connected (f : gset nat → gset nat) (s : Server) : Server :=
  {| games := games s; players := players s; i18n := i18n s;
     player_objs := player_objs s; game_objs := game_objs s;
     next_ref := next_ref s; peer_data := peer_data s;
     peer_connected := f (peer_connected s); outbox := outbox s |}.

Definition set_outbox (f : list Action → list Action) (s : Server) : Server :=
  {| games := games s; players := players s; i18n := i18n s;
     player_objs := player_objs s; game_objs := game_objs s;
     next_ref := next_ref s; peer_data := peer_data s;
     peer_connected := peer_connected s; outbox := f (outbox s) |}.

(** Dereferencing: a Python reference always names a live object. *)
Definition player_at (s : Server) (r : nat) : Player.t := player_objs s !!! r.
Definition game_at (s : Server) (r : nat) : Game.t := game_objs s !!! r.

Definition update_player (r : nat) (f : Player.t → Player.t) (s : Server)
  : Server :=
  set_player_objs (λ h, <[r := f (h !!! r)]> h) s.

Definition update_game (r : nat) (f : Game.t → Game.t) (s : Server) : Server :=
  set_game_objs (λ h, <[r := f (h !!! r)]> h) s.

Definition snapshot (s : Server) (g : nat) : Snapshot :=
  {| snap_game := game_at s g;
     snap_members := player_at s <$> Game.players (game_at s g) |}.

(** ** The handler monad over the server state *)

Definition M (A : Type) : Type := Server → result Server A.

Definition ret {A} (a : A) : M A := λ s, Ok a s.

Definition bind {A B} (m : M A) (k : A → M B) : M B :=
  λ s, match m s with
       | Ok a s' => k a s'
       | Raise e s' => Raise e s'
       end.

Definition raise {A} (e : Exn) : M A := λ s, Raise e s.
Definition gets {A} (f : Server → A) : M A := λ s, Ok (f s) s.
Definition modify (f : Server → Server) : M unit := λ s, Ok () (f s).

Notation "'let!' x ':=' m 'in' k" := (bind m (λ x, k))
  (at level 10, x name, m at level 100, k at level 200,
   format "'[v' 'let!'  x  ':='  m  'in' '/' k ']'").
Notation "m '>>' k" := (bind m (λ _, k))
  (at level 100, k at level 200, right associativity,
   format "'[v' m  '>>' '/' k ']'").

(** A [for x in l:] loop whose body neither breaks nor returns. *)
Fixpoint for_ {A} (l : list A) (body : A → M unit) : M unit :=
  match l with
  | [] => ret ()
  | x :: l' => body x >> for_ l' body
  end.

(** A handler as the router stores it. *)
Definition handler (A : Type) : Type := Router.callback Server A.

(** [return] at the end of a handler: the handler returns [None]. *)
Definition return_None : M (option bool) := ret None.

(** ** The transport *)

(** [send] and [sendraw] raise [NotConnected] while [self.host] is [None];
    [run] creates the host before it enters the loop, and handlers only run
    from the loop, so here the host is always there. *)
Definition send (peer : nat) (packet : server_packets.t) : M unit :=
  modify (set_outbox (λ o, o ++ [Send peer packet])).

Definition sendraw (peer : nat) (data : list Byte.byte) : M unit :=
  modify (set_outbox (λ o, o ++ [SendRaw peer data])).

(** [disconnect]: whether by [disconnect_later], [disconnect] or, after an
    [IOError], [reset], the peer leaves the connected state. *)
Definition disconnect (peer : nat) (later : bool) : M unit :=
  modify (set_outbox (λ o, o ++ [Disconnect peer later])) >>
  modify (set_peer_connected (λ c, c ∖ {[peer]})).

Definition S_ (player : Player.t) (message : string) : Text :=
  {| locale := Player.gettext player; msgid := message |}.

Definition _error (peer : nat) (message : Text) (_type : ErrorType.t)
  : M unit :=
  send peer (server_packets.cmd_error message _type).

Definition error (player : nat) (message : string) (_type : ErrorType.t)
  : M unit :=
  let! p := gets (λ s, player_at s player) in
  _error (Player.peer p) (S_ p message) _type.

Definition _fatalerror (peer : nat) (message : Text) (later : bool) : M unit :=
  send peer (server_packets.cmd_fatalerror message) >>
  disconnect peer later.

Definition fatalerror (player : nat) (message : string) (later : bool)
  : M unit :=
  let! p := gets (λ s, player_at s player) in
  _fatalerror (Player.peer p) (S_ p message) later.

(** ** The methods of [Game] that change objects *)

(** [list.remove(x)]: the first occurrence goes; [None] stands for the
    [ValueError] of a list without [x]. *)
Fixpoint list_remove_first (x : nat) (l : list nat) : option (list nat) :=
  match l with
  | [] => None
  | y :: l' =>
      if bool_decide (y = x) then Some l'
      else cons y <$> list_remove_first x l'
  end.

(** Modelled from the spec: [Game.add_player(player, packet)], "ordered list
    of member Players (join order preserved)": the player joins (see
    [Player.join]), is appended to the members and counted. *)
Definition add_player (game player : nat) (clientversion : Z)
    (playername : string) (playercolor : option Z) (clientid : string)
  : M unit :=
  modify (update_player player
            (Player.join game clientversion playername playercolor clientid)) >>
  modify (update_game game (λ g,
            Game.set_players (Game.players g ++ [player])
                             (Game.playercnt g + 1) g)).

(** Modelled from the spec: [Game.remove_player(player)]: a member is taken
    off the list and the count, and no longer belongs to a game; for
    someone who is no member nothing happens. *)
Definition remove_player (game player : nat) : M unit :=
  let! g := gets (λ s, game_at s game) in
  match list_remove_first player (Game.players g) with
  | None => ret ()
  | Some l =>
      modify (update_game game
                (Game.set_players l (Game.playercnt g - 1))) >>
      modify (update_player player (Player.set_game None))
  end.

(** Modelled from the spec: [Game.clear()], used when a game is destroyed:
    every member is released and the member list emptied. *)
Definition clear (game : nat) : M unit :=
  let! g := gets (λ s, game_at s game) in
  for_ (Game.players g)
       (λ player, modify (update_player player (Player.set_game None))) >>
  modify (update_game game (Game.set_players [] 0)).

(** Modelled from the spec: [Game.is_ready()], "every current member is
    ready": as many ready members as the game counts players. *)
Definition is_ready (s : Server) (game : nat) : bool :=
  let g := game_at s game in
  (Z.of_nat (length (filter (λ r, Player.ready (player_at s r) = true)
                            (Game.players g)))
   =? Game.playercnt g)%Z.

(** Modelled from the spec: [Game(packet, creator)], "Create: produces a new
    Game in Open with the creator auto-joined". The UUID of the game is its
    reference. *)
Definition new_Game (packet : packets.client.cmd_creategame.t)
    (creator : nat) : M nat :=
  let! game := gets next_ref in
  modify (set_next_ref (S game)) >>
  modify (set_game_objs (λ h,
     <[game := {| Game.uuid := game; Game.creator := creator;
                  Game.players := []; Game.playercnt := 0;
                  Game.maxplayers :=
                    packets.client.cmd_creategame.maxplayers packet;
                  Game.password :=
                    packets.client.cmd_creategame.password packet;
                  Game.mapname :=
                    packets.client.cmd_creategame.mapname packet;
                  Game.state := Game.State.Open |}]> h)) >>
  add_player game creator
    (packets.client.cmd_creategame.clientversion packet)
    (packets.client.cmd_creategame.playername packet)
    (packets.client.cmd_creategame.playercolor packet)
    (packets.client.cmd_creategame.clientid packet) >>
  ret game.

(** [Player(event.peer, sid, event.data)] as a new object (see
    [Player.init]). *)
Definition new_Player (peer : nat) (sid : string) (protocol : Z) : M nat :=
  let! player := gets next_ref in
  modify (set_next_ref (S player)) >>
  modify (set_player_objs (λ h, <[player := Player.init peer sid protocol]> h)) >>
  ret player.

(** ** The handlers of [Server]

    [self.callbacks] is one dictionary; handlers of different keys take
    different arguments, so here it is split by argument type into
    [callbacks_game], [callbacks_gamedata], [callbacks_terminategame],
    [callbacks_leavegame], [callbacks_packet] and [callbacks_event], each
    holding the entries [__init__] gives it. *)

Module pc := packets.client.
Module sp := server_packets.

Definition call_callbacks {A} (callbacks : gmap string (list (handler A)))
    (type : string) (args : A) : M (option bool) :=
  Router.call_callbacks callbacks type args.

Definition deletegame : handler nat := λ game,
  clear game >>
  let! registry := gets games in
  match list_remove_first game registry with
  | None => raise (ValueError "list.remove(x): x not in list")
  | Some l => modify (set_games (λ _, l)) >> return_None
  end.

Definition preparegame : handler nat := λ game,
  modify (update_game game (Game.set_state Game.State.Prepare)) >>
  let! g := gets (λ s, game_at s game) in
  for_ (Game.players g) (λ _player,
    let! p := gets (λ s, player_at s _player) in
    send (Player.peer p) sp.cmd_preparegame) >>
  return_None.

Definition startgame : handler nat := λ game,
  modify (update_game game (Game.set_state Game.State.Running)) >>
  let! g := gets (λ s, game_at s game) in
  for_ (Game.players g) (λ _player,
    let! p := gets (λ s, player_at s _player) in
    send (Player.peer p) sp.cmd_startgame) >>
  return_None.

Definition callbacks_game : gmap string (list (handler nat)) :=
  list_to_map [("preparegame", [preparegame]); ("startgame", [startgame]);
               ("deletegame", [deletegame])].

(** [gamedata(player, data)]: the relay of a running game. *)
Definition gamedata : handler (nat * list Byte.byte) := λ '(player, data),
  let! p := gets (λ s, player_at s player) in
  match Player.game p with
  | None => raise (AttributeError "'NoneType' object has no attribute 'players'")
  | Some game =>
      let! g := gets (λ s, game_at s game) in
      for_ (Game.players g) (λ _player,
        if bool_decide (_player = player) then ret ()
        else
          let! q := gets (λ s, player_at s _player) in
          sendraw (Player.peer q) data) >>
      return_None
  end.

Definition callbacks_gamedata
  : gmap string (list (handler (nat * list Byte.byte))) :=
  list_to_map [("gamedata", [gamedata])].

Definition terminategame : handler (nat * option nat) := λ '(game, player),
  let! g := gets (λ s, game_at s game) in
  let! creator := gets (λ s, player_at s (Game.creator g)) in
  (if (1 <=? Player.protocol creator)%Z && Game.is_open g then
     for_ (Game.players g) (λ _player,
       error _player
         "The game has been terminated. The creator has left the game."
         ErrorType.TerminateGame)
   else
     for_ (Game.players g) (λ _player,
       let! p := gets (λ s, player_at s _player) in
       let! connected := gets (λ s, bool_decide (Player.peer p ∈ peer_connected s)) in
       if connected then
         fatalerror _player
           ("One player has terminated their game. " +:+
            "For technical reasons, this currently means the game cannot continue. " +:+
            "We are very sorry about that.") true
       else ret ())) >>
  call_callbacks callbacks_game "deletegame" game >>
  return_None.

Definition callbacks_terminategame
  : gmap string (list (handler (nat * option nat))) :=
  list_to_map [("terminategame", [terminategame])].

(** [for _player in game.players: self.send(_player.peer,
    packets.server.data_gamestate(game))] *)
Definition send_gamestate (game : nat) : M unit :=
  let! g := gets (λ s, game_at s game) in
  for_ (Game.players g) (λ _player,
    let! p := gets (λ s, player_at s _player) in
    let! snap := gets (λ s, snapshot s game) in
    send (Player.peer p) (sp.data_gamestate snap)).

Definition leavegame : handler nat := λ player,
  let! p := gets (λ s, player_at s player) in
  match Player.game p with
  | None => raise (AttributeError "'NoneType' object has no attribute 'is_open'")
  | Some game =>
      let! g := gets (λ s, game_at s game) in
      if negb (Game.is_open g) then
        call_callbacks callbacks_terminategame "terminategame"
                       (game, Some player) >>
        return_None
      else
        remove_player game player >>
        let! g := gets (λ s, game_at s game) in
        if Game.is_empty g then
          call_callbacks callbacks_game "deletegame" game >>
          return_None
        else
          send_gamestate game >>
          let! p := gets (λ s, player_at s player) in
          let! g := gets (λ s, game_at s game) in
          if (1 <=? Player.protocol p)%Z && bool_decide (player = Game.creator g)
          then
            call_callbacks callbacks_terminategame "terminategame"
                           (game, Some player) >>
            return_None
          else return_None
  end.

Definition callbacks_leavegame : gmap string (list (handler nat)) :=
  list_to_map [("leavegame", [leavegame])].

(** A handler for one packet class that is handed a packet of another
    class fails on the first field it reads. *)
Definition wrong_class {A} : M A :=
  raise (AttributeError "packet has no such attribute").

Definition onerror : handler (nat * pc.t) := λ '(player, packet),
  return_None.

Definition onfatalerror : handler (nat * pc.t) := λ '(player, packet),
  let! p := gets (λ s, player_at s player) in
  disconnect (Player.peer p) true >>
  return_None.

Definition onsessionprops : handler (nat * pc.t) := λ '(player, packet),
  match pc.body packet with
  | pc.cmd_sessionprops lang =>
      let! languages := gets i18n in
      match lang with
      | Some l =>
          if bool_decide (l ∈ languages)
          then modify (update_player player (Player.set_gettext (Some l)))
          else ret ()
      | None => ret ()
      end >>
      let! p := gets (λ s, player_at s player) in
      send (Player.peer p) sp.cmd_ok >>
      return_None
  | _ => wrong_class
  end.

Definition oncreategame : handler (nat * pc.t) := λ '(player, packet),
  match pc.body packet with
  | pc.cmd_creategame pk =>
      if (pc.cmd_creategame.maxplayers pk <? minplayers)%Z then
        raise (SoftNetworkException
                 "You can't run a game with less than 2 players")
      else if (maxplayers <? pc.cmd_creategame.maxplayers pk)%Z then
        raise (SoftNetworkException
                 "You can't run a game with more than 8 players")
      else
        let! game := new_Game pk player in
        modify (set_games (λ l, l ++ [game])) >>
        let! p := gets (λ s, player_at s player) in
        let! snap := gets (λ s, snapshot s game) in
        send (Player.peer p) (sp.data_gamestate snap) >>
        return_None
  | _ => wrong_class
  end.

Definition onlistgames : handler (nat * pc.t) := λ '(player, packet),
  match pc.body packet with
  | pc.cmd_listgames pk =>
      let! s := gets id in
      let p := player_at s player in
      let listed (_game : nat) : bool :=
        let g := game_at s _game in
        let creator := player_at s (Game.creator g) in
        if bool_decide (Player.protocol creator ≠ Player.protocol p) then false
        else if negb (Game.is_open g) then false
        else if Game.is_full g then false
        else if bool_decide (pc.cmd_listgames.clientversion pk ≠ (-1)%Z)
                && bool_decide (Some (pc.cmd_listgames.clientversion pk)
                                ≠ Player.version creator) then false
        else if bool_decide (pc.cmd_listgames.mapname pk ≠ "")
                && bool_decide (pc.cmd_listgames.mapname pk ≠ Game.mapname g)
             then false
        else if bool_decide (pc.cmd_listgames.maxplayers pk ≠ 0%Z)
                && bool_decide (pc.cmd_listgames.maxplayers pk
                                ≠ Game.maxplayers g) then false
        else true in
      send (Player.peer p)
           (sp.data_gameslist (snapshot s <$> filter (λ g, listed g = true) (games s))) >>
      return_None
  | _ => wrong_class
  end.

(** [__find_game_from_uuid] *)
Definition find_game_from_uuid (s : Server) (packet : pc.cmd_joingame.t)
  : option nat :=
  list_find (λ _game,
      let g := game_at s _game in
      Some (pc.cmd_joingame.clientversion packet)
        = Player.version (player_at s (Game.creator g))
      ∧ pc.cmd_joingame.uuid packet = Game.uuid g) (games s)
  ≫= λ found, Some found.2.

(** [range(a, b)] *)
Definition range (a b : Z) : list Z :=
  (λ i, a + Z.of_nat i)%Z <$> seq 0 (Z.to_nat (b - a)).

(** [for color in range(...): if color not in colors: break]; [color] is the
    loop variable, which keeps its last value when the loop runs out. *)
Fixpoint first_not_in (candidates : list Z) (colors : list (option Z))
    (color : option Z) : option Z :=
  match candidates with
  | [] => color
  | c :: rest =>
      if bool_decide (Some c ∈ colors) then first_not_in rest colors (Some c)
      else Some c
  end.

(** The color given to a join request without one. *)
Definition assign_free_color (s : Server) (game : nat) : option Z :=
  let colors := (λ _player, Player.color (player_at s _player))
                  <$> Game.players (game_at s game) in
  first_not_in (range 1 (Z.of_nat (length colors) + 2)) colors None.

(** The loop that makes sure player names, colors and client ids are
    unique: the message of the first check that fails, if any. *)
Fixpoint find_collision (s : Server) (members : list nat)
    (playername : string) (playercolor : option Z) (clientid : string)
  : option string :=
  match members with
  | [] => None
  | _player :: rest =>
      let p := player_at s _player in
      if bool_decide (Player.name p = Some playername) then
        Some ("There's already a player with your name inside this game."
              +:+ " " +:+ "Please change your name.")
      else if bool_decide (Player.color p = playercolor) then
        Some ("There's already a player with your color inside this game."
              +:+ " " +:+ "Please change your color.")
      else if bool_decide (Player.clientid p = Some clientid) then
        Some ("There's already a player with your unique player ID inside this game. "
              +:+ "This should never occur.")
      else find_collision s rest playername playercolor clientid
  end.

Definition onjoingame : handler (nat * pc.t) := λ '(player, packet),
  match pc.body packet with
  | pc.cmd_joingame pk =>
      let! s := gets id in
      let p := player_at s player in
      if bool_decide (Player.game p ≠ None) then
        error player "You can't join a game while in another game"
              ErrorType.NotSet >> return_None
      else
      match find_game_from_uuid s pk with
      | None =>
          error player "Unknown game or game is running a different version"
                ErrorType.NotSet >> return_None
      | Some game =>
          let g := game_at s game in
          if negb (Game.is_open g) then
            error player "Game has already started. No more joining"
                  ErrorType.NotSet >> return_None
          else if Game.is_full g then
            error player "Game is full" ErrorType.NotSet >> return_None
          else if Game.has_password g
                  && bool_decide (pc.cmd_joingame.password pk ≠ Game.password g)
          then
            error player "Wrong password" ErrorType.NotSet >> return_None
          else
            let playercolor :=
              match pc.cmd_joingame.playercolor pk with
              | None => assign_free_color s game
              | Some c => Some c
              end in
            match find_collision s (Game.players g)
                    (pc.cmd_joingame.playername pk) playercolor
                    (pc.cmd_joingame.clientid pk) with
            | Some message =>
                error player message ErrorType.NotSet >> return_None
            | None =>
                add_player game player
                  (pc.cmd_joingame.clientversion pk)
                  (pc.cmd_joingame.playername pk)
                  playercolor
                  (pc.cmd_joingame.clientid pk) >>
                send_gamestate game >>
                let! p := gets (λ s, player_at s player) in
                let! g := gets (λ s, game_at s game) in
                if bool_decide (Player.protocol p = 0%Z) then
                  if Game.is_full g then
                    call_callbacks callbacks_game "preparegame" game >>
                    return_None
                  else return_None
                else return_None
            end
      end
  | _ => wrong_class
  end.

Definition onleavegame : handler (nat * pc.t) := λ '(player, packet),
  let! p := gets (λ s, player_at s player) in
  match Player.game p with
  | None =>
      error player "You are not inside a game" ErrorType.NotSet >>
      return_None
  | Some _ =>
      call_callbacks callbacks_leavegame "leavegame" player >>
      let! p := gets (λ s, player_at s player) in
      send (Player.peer p) sp.cmd_ok >>
      return_None
  end.

Definition onchat : handler (nat * pc.t) := λ '(player, packet),
  match pc.body packet with
  | pc.cmd_chatmsg chatmsg =>
      let! p := gets (λ s, player_at s player) in
      match Player.game p with
      | None => send (Player.peer p) sp.cmd_ok >> return_None
      | Some game =>
          let! g := gets (λ s, game_at s game) in
          if negb (Game.is_open g) then return_None
          else
            for_ (Game.players g) (λ _player,
              let! q := gets (λ s, player_at s _player) in
              send (Player.peer q) (sp.cmd_chatmsg (Player.name p) chatmsg)) >>
            return_None
      end
  | _ => wrong_class
  end.

Definition onchangename : handler (nat * pc.t) := λ '(player, packet),
  match pc.body packet with
  | pc.cmd_changename playername =>
      let! s := gets id in
      let p := player_at s player in
      match Player.game p with
      | None => send (Player.peer p) sp.cmd_ok >> return_None
      | Some game =>
          if bool_decide (Player.name p = Some playername) then return_None
          else
            let g := game_at s game in
            if negb (Game.is_open g) then return_None
            else if bool_decide
                      (Exists (λ _player,
                         Player.name (player_at s _player) = Some playername)
                         (Game.players g))
            then
              error player
                ("There's already a player with your name inside this game."
                 +:+ " " +:+ "Unable to change your name.")
                ErrorType.NotSet >> return_None
            else
              modify (update_player player (Player.set_name (Some playername))) >>
              send_gamestate game >>
              return_None
      end
  | _ => wrong_class
  end.

Definition onchangecolor : handler (nat * pc.t) := λ '(player, packet),
  match pc.body packet with
  | pc.cmd_changecolor playercolor =>
      let! s := gets id in
      let p := player_at s player in
      match Player.game p with
      | None => send (Player.peer p) sp.cmd_ok >> return_None
      | Some game =>
          if bool_decide (Player.color p = Some playercolor) then return_None
          else
            let g := game_at s game in
            if negb (Game.is_open g) then return_None
            else if bool_decide
                      (Exists (λ _player,
                         Player.color (player_at s _player) = Some playercolor)
                         (Game.players g))
            then
              error player
                ("There's already a player with your color inside this game."
                 +:+ " " +:+ "Unable to change your color.")
                ErrorType.NotSet >> return_None
            else
              modify (update_player player (Player.set_color (Some playercolor))) >>
              send_gamestate game >>
              return_None
      end
  | _ => wrong_class
  end.

(** [count] of [onpreparedgame]: the members whose [prepared] flag is set. *)
Definition count_prepared (s : Server) (game : nat) : Z :=
  Z.of_nat (length (filter (λ r, Player.prepared (player_at s r) = true)
                           (Game.players (game_at s game)))).

Definition onpreparedgame : handler (nat * pc.t) := λ '(player, packet),
  let! p := gets (λ s, player_at s player) in
  match Player.game p with
  | None => return_None
  | Some game =>
      modify (update_player player (Player.set_prepared true)) >>
      let! count := gets (λ s, count_prepared s game) in
      let! g := gets (λ s, game_at s game) in
      if bool_decide (count ≠ Game.playercnt g) then return_None
      else
        call_callbacks callbacks_game "startgame" game >>
        return_None
  end.

Definition ontoggleready : handler (nat * pc.t) := λ '(player, packet),
  let! p := gets (λ s, player_at s player) in
  match Player.game p with
  | None => return_None
  | Some game =>
      let! g := gets (λ s, game_at s game) in
      if negb (Game.is_open g) then return_None
      else
        modify (update_player player Player.toggle_ready) >>
        send_gamestate game >>
        let! ready := gets (λ s, is_ready s game) in
        if ready then
          call_callbacks callbacks_game "preparegame" game >>
          return_None
        else return_None
  end.

Definition onkick : handler (nat * pc.t) := λ '(player, packet),
  match pc.body packet with
  | pc.cmd_kickplayer kicksid =>
      let! s := gets id in
      let p := player_at s player in
      match Player.game p with
      | None => return_None
      | Some game =>
          let g := game_at s game in
          if negb (Game.is_open g) then return_None
          else if bool_decide (player ≠ Game.creator g) then return_None
          else
            match list_find (λ _player,
                     Player.sid (player_at s _player) = kicksid)
                    (Game.players g) with
            | None => return_None
            | Some (_, kickplayer) =>
                if bool_decide (kickplayer = Game.creator g) then return_None
                else
                  for_ (Game.players g) (λ _player,
                    let! q := gets (λ s, player_at s _player) in
                    let! k := gets (λ s, player_at s kickplayer) in
                    send (Player.peer q) (sp.cmd_kickplayer k)) >>
                  call_callbacks callbacks_leavegame "leavegame" kickplayer >>
                  return_None
            end
      end
  | _ => wrong_class
  end.

Definition callbacks_packet : gmap string (list (handler (nat * pc.t))) :=
  list_to_map
    [("packets.cmd_error", [onerror]);
     ("packets.cmd_fatalerror", [onfatalerror]);
     ("packets.client.cmd_sessionprops", [onsessionprops]);
     ("packets.client.cmd_creategame", [oncreategame]);
     ("packets.client.cmd_listgames", [onlistgames]);
     ("packets.client.cmd_joingame", [onjoingame]);
     ("packets.client.cmd_leavegame", [onleavegame]);
     ("packets.client.cmd_chatmsg", [onchat]);
     ("packets.client.cmd_changename", [onchangename]);
     ("packets.client.cmd_changecolor", [onchangecolor]);
     ("packets.client.cmd_preparedgame", [onpreparedgame]);
     ("packets.client.cmd_toggleready", [ontoggleready]);
     ("packets.client.cmd_kickplayer", [onkick])].

(** ** Transport events *)

Module EventType.
Inductive t : Type := NONE | CONNECT | DISCONNECT | RECEIVE | INVALID (n : nat).
End EventType.

(** An [enet] event. [uuid4] is not a field of the event: it is the value
    [uuid.uuid4().hex] yields while the event is handled, the only source
    of randomness in [onconnect]. *)
Module Event.
Record t : Type := {
  type : EventType.t;
  peer : nat;
  data : Z;
  packet_data : list Byte.byte;
  uuid4 : string;
}.
End Event.

Definition generate_session_id (event : Event.t) : string := Event.uuid4 event.

Definition onconnect : handler Event.t := λ event,
  let peer := Event.peer event in
  let! player := new_Player peer (generate_session_id event) (Event.data event) in
  let! p := gets (λ s, player_at s player) in
  let session_id := Player.sid p in
  modify (set_peer_data (λ d, <[peer := session_id]> d)) >>
  if bool_decide (Player.protocol p ∉ PROTOCOLS) then
    fatalerror player
      "Old or unsupported multiplayer protocol. Please check your game version"
      true >>
    return_None
  else
    modify (set_players (λ d, <[session_id := player]> d)) >>
    send peer (sp.cmd_session (Player.sid p) minplayers maxplayers maxpacketsize) >>
    return_None.

(** [self.players[peer.data]], when [peer.data in self.players]. *)
Definition known_player (s : Server) (peer : nat) : option nat :=
  peer_data s !! peer ≫= λ session_id, players s !! session_id.

Definition ondisconnect : handler Event.t := λ event,
  let peer := Event.peer event in
  let! s := gets id in
  match known_player s peer with
  | None => return_None
  | Some player =>
      (if bool_decide (Player.game (player_at s player) ≠ None)
       then call_callbacks callbacks_leavegame "leavegame" player >> ret ()
       else ret ()) >>
      modify (set_players (λ d,
        match peer_data s !! peer with
        | Some session_id => delete session_id d
        | None => d
        end)) >>
      return_None
  end.

(** Whether [player.game is not None and player.game.state is
    Game.State.Running]. *)
Definition in_running_game (s : Server) (player : nat) : bool :=
  match Player.game (player_at s player) with
  | None => false
  | Some game => bool_decide (Game.state (game_at s game) = Game.State.Running)
  end.

Section receive.

(** [packets.unserialize] belongs to [horizons/network/packets]: the codec
    is a parameter of the server. *)
Variable unserialize : list Byte.byte → Z → packets.parsed.

Definition onreceive : handler Event.t := λ event,
  let peer := Event.peer event in
  let! s := gets id in
  match known_player s peer with
  | None =>
      _fatalerror peer (untranslated "I don't know you") true >>
      return_None
  | Some player =>
      let p := player_at s player in
      if (maxpacketsize <? Z.of_nat (length (Event.packet_data event)))%Z then
        fatalerror player
          ("You've exceeded the global packet size." +:+ " " +:+
           "This should never happen. Please contact us or file a bug report.")
          true >>
        return_None
      else if in_running_game s player then
        call_callbacks callbacks_gamedata "gamedata"
                       (player, Event.packet_data event) >>
        return_None
      else
        match unserialize (Event.packet_data event) (Player.protocol p) with
        | packets.RaisedSoftNetworkException e =>
            error player e ErrorType.NotSet >> return_None
        | packets.RaisedPacketTooLarge e =>
            fatalerror player
              ("You've exceeded the per packet size." +:+ " " +:+
               "This should never happen. Please contact us or file a bug report."
               +:+ " " +:+ e) true >>
            return_None
        | packets.RaisedException e =>
            fatalerror player
              "Unknown or malformed packet. Please check your game version"
              true >>
            return_None
        | packets.Parsed packet =>
            if bool_decide (pc.sid packet ≠ Player.sid p) then
              fatalerror player "Invalid/Unknown session" true >>
              return_None
            else if bool_decide
                      (callbacks_packet !! pc.class_of (pc.body packet) = None)
            then return_None
            else
              call_callbacks callbacks_packet (pc.class_of (pc.body packet))
                             (player, packet) >>
              return_None
        end
  end.

Definition callbacks_event : gmap string (list (handler Event.t)) :=
  list_to_map [("onconnect", [onconnect]); ("ondisconnect", [ondisconnect]);
               ("onreceive", [onreceive])].

(** One turn of the loop of [run], for the event [self.host.service] hands
    over. The transport has already moved the peer into or out of the
    connected state when it reports a connect or a disconnect. *)
Definition run_once (event : Event.t) : M unit :=
  match Event.type event with
  | EventType.NONE => ret ()
  | EventType.CONNECT =>
      modify (set_peer_connected (λ c, {[Event.peer event]} ∪ c)) >>
      call_callbacks callbacks_event "onconnect" event >> ret ()
  | EventType.DISCONNECT =>
      modify (set_peer_connected (λ c, c ∖ {[Event.peer event]})) >>
      call_callbacks callbacks_event "ondisconnect" event >> ret ()
  | EventType.RECEIVE =>
      call_callbacks callbacks_event "onreceive" event >> ret ()
  | EventType.INVALID _ => ret ()
  end.

(** The loop of [run] over the events the transport delivers, until they
    run out or an exception leaves the loop: nothing in [run] catches one,
    so it ends the server. The statistics file [run] writes between events
    reads the registries and changes nothing in them. *)
Fixpoint run (events : list Event.t) : M unit :=
  match events with
  | [] => ret ()
  | event :: rest => run_once event >> run rest
  end.

End receive.

(** ** Tools for the proofs *)

(** What holds once [m] has returned from [s]; nothing is asked of a run
    that ends in an exception. *)
Definition wp {A} (m : M A) (Q : A → Server → Prop) (s : Server) : Prop :=
  match m s with
  | Ok a s' => Q a s'
  | Raise _ _ => True
  end.

(** The colors the members of a game hold. *)
Definition colors_of (s : Server) (game : nat) : list (option Z) :=
  (λ _player, Player.color (player_at s _player))
    <$> Game.players (game_at s game).

(** [c] is the smallest positive integer that is none of [colors]. *)
Definition smallest_unused (colors : list (option Z)) (c : Z) : Prop :=
  (1 ≤ c)%Z ∧ (Some c ∉ colors) ∧ ∀ c', (1 ≤ c' < c)%Z → Some c' ∈ colors.

(** The state once [player] has been sent a fatal error and been
    disconnected: the error packet and the disconnection are added to the
    outbox, the peer leaves the connected state, and nothing else changes. *)
Definition after_fatalerror (s : Server) (player : nat) (message : string)
  : Server :=
  let p := player_at s player in
  set_peer_connected (λ c, c ∖ {[Player.peer p]})
    (set_outbox (λ o, o ++ [Send (Player.peer p)
                              (sp.cmd_fatalerror (S_ p message));
                            Disconnect (Player.peer p) true]) s).

(** The state once [player] has been sent a soft error: one error packet
    more in the outbox, and nothing else changes. *)
Definition after_error (s : Server) (player : nat) (message : string)
    (_type : ErrorType.t) : Server :=
  let p := player_at s player in
  set_outbox (λ o, o ++ [Send (Player.peer p)
                           (sp.cmd_error (S_ p message) _type)]) s.

(** "The server responds with a fatal error and disconnects the peer." *)
Definition fatal_response (s s' : Server) (player : nat) : Prop :=
  ∃ message, s' = after_fatalerror s player message.

(** "The server reports a recoverable soft error, and the peer's connection
    and game membership remain intact." *)
Definition soft_response (s s' : Server) (player : nat) : Prop :=
  ∃ message, s' = after_error s player message ErrorType.NotSet.

(** ** Example traffic *)

#[global] Instance byte_eq_dec : EqDecision Byte.byte := Byte.byte_eq_dec.

(** A codec given by a table: the listed byte strings parse to the outcome
    beside them, whatever the protocol; any other is malformed. *)
Definition table_codec (table : list (list Byte.byte * packets.parsed))
    (data : list Byte.byte) (protocol : Z) : packets.parsed :=
  match list_find (λ entry, entry.1 = data) table with
  | Some (_, (_, outcome)) => outcome
  | None => packets.RaisedException "malformed"
  end.

Definition connect_event (peer : nat) (protocol : Z) (sid : string) : Event.t :=
  {| Event.type := EventType.CONNECT; Event.peer := peer;
     Event.data := protocol; Event.packet_data := []; Event.uuid4 := sid |}.

Definition disconnect_event (peer : nat) : Event.t :=
  {| Event.type := EventType.DISCONNECT; Event.peer := peer;
     Event.data := 0; Event.packet_data := []; Event.uuid4 := "" |}.

Definition receive_event (peer : nat) (data : list Byte.byte) : Event.t :=
  {| Event.type := EventType.RECEIVE; Event.peer := peer;
     Event.data := 0; Event.packet_data := data; Event.uuid4 := "" |}.

(** The packets of the examples: players "A", "B" and "C" with the session
    ids of the same name. *)
Definition creategame_packet (sid : string) (color : option Z) (maxplayers : Z)
    (password : option string) : pc.t :=
  {| pc.sid := sid;
     pc.body := pc.cmd_creategame
       {| pc.cmd_creategame.clientversion := 2017;
          pc.cmd_creategame.clientid := "client-" +:+ sid;
          pc.cmd_creategame.playername := "player-" +:+ sid;
          pc.cmd_creategame.playercolor := color;
          pc.cmd_creategame.mapname := "development";
          pc.cmd_creategame.maxplayers := maxplayers;
          pc.cmd_creategame.password := password |} |}.

Definition joingame_packet (sid : string) (uuid : nat) (playername : string)
    (color : option Z) (password : option string) : pc.t :=
  {| pc.sid := sid;
     pc.body := pc.cmd_joingame
       {| pc.cmd_joingame.uuid := uuid;
          pc.cmd_joingame.clientversion := 2017;
          pc.cmd_joingame.clientid := "client-" +:+ sid;
          pc.cmd_joingame.playername := playername;
          pc.cmd_joingame.playercolor := color;
          pc.cmd_joingame.password := password |} |}.

Definition plain_packet (sid : string) (body : pc.cmd) : pc.t :=
  {| pc.sid := sid; pc.body := body |}.

(** The text of the fatal error for a packet beyond the size of its class;
    [e] is [str(e)] for the [PacketTooLarge] raised by the codec. *)
Definition per_packet_size_message (e : string) : string :=
  "You've exceeded the per packet size." +:+ " " +:+
  "This should never happen. Please contact us or file a bug report."
  +:+ " " +:+ e.


(** A chat message of a hundred bytes, more than the example codec allows
    its class. *)
Definition oversized_chatmsg : list Byte.byte := replicate 100 Byte.x09.

(** The byte strings of the examples and what they parse to. The first
    object the server creates has reference 0, so with one player connected
    before it the first game has reference (and UUID) 1. *)
Definition example_table : list (list Byte.byte * packets.parsed) :=
  [ ([Byte.x01], packets.Parsed (creategame_packet "A" (Some 1%Z) 2 None));
    ([Byte.x02], packets.Parsed (joingame_packet "B" 1 "player-B" (Some 2%Z) None));
    ([Byte.x03], packets.Parsed (plain_packet "A" pc.cmd_toggleready));
    ([Byte.x04], packets.Parsed (plain_packet "B" pc.cmd_toggleready));
    ([Byte.x05], packets.Parsed (plain_packet "A" pc.cmd_preparedgame));
    ([Byte.x06], packets.Parsed (plain_packet "B" pc.cmd_preparedgame));
    ([Byte.x07], packets.Parsed (plain_packet "Z" (pc.cmd_chatmsg "hello")));
    ([Byte.x08], packets.Parsed (creategame_packet "A" (Some 1%Z) 1 None));
    (oversized_chatmsg, packets.RaisedPacketTooLarge
                          "packet=cmd_chatmsg, length=100)");
    ([Byte.x0a], packets.Parsed (creategame_packet "A" (Some 1%Z) 3 None));
    ([Byte.x0b], packets.Parsed (plain_packet "A" pc.cmd_leavegame));
    ([Byte.x0c], packets.Parsed (joingame_packet "B" 1 "player-A" (Some 2%Z) None));
    ([Byte.x0d], packets.Parsed (joingame_packet "B" 1 "player-B" (Some 3%Z) None));
    ([Byte.x0e], packets.Parsed (joingame_packet "C" 1 "player-C" None None));
    ([Byte.x0f], packets.Parsed (creategame_packet "A" (Some 1%Z) 4 (Some "x")));
    ([Byte.x10], packets.Parsed
                   (joingame_packet "B" 1 "player-B" (Some 2%Z) (Some "y")));
    ([Byte.x11], packets.Parsed
                   (joingame_packet "B" 1 "player-B" (Some 2%Z) (Some "x")))
  ].

Definition example_codec : list Byte.byte → Z → packets.parsed :=
  table_codec example_table.

(** The state the server is in after [events], starting empty. *)
Definition state_after (events : list Event.t) : Server :=
  state_of (run example_codec events (initial ∅)).

(** "A" (peer 1, protocol 1) has connected. *)
Definition connected_events : list Event.t := [connect_event 1 1 "A"].

(** "A" has created a game for two, "B" (peer 2, protocol 1) has joined it. *)
Definition lobby_events : list Event.t :=
  [connect_event 1 1 "A"; receive_event 1 [Byte.x01];
   connect_event 2 1 "B"; receive_event 2 [Byte.x02]].

(** Both are ready, so the game is in Prepare. *)
Definition prepare_events : list Event.t :=
  lobby_events ++ [receive_event 1 [Byte.x03]; receive_event 2 [Byte.x04]].

(** Both have loaded, so the game is running. *)
Definition running_events : list Event.t :=
  prepare_events ++ [receive_event 1 [Byte.x05]; receive_event 2 [Byte.x06]].

(** "A", on the given protocol, has created a game for three, and "B" has
    joined it. *)
Definition lobby_of_three_events (protocol : Z) : list Event.t :=
  [connect_event 1 protocol "A"; receive_event 1 [Byte.x0a];
   connect_event 2 1 "B"; receive_event 2 [Byte.x02]].

(** "A" has created a game for two; "B", on the given protocol, has
    connected. *)
Definition before_last_join_events (protocol : Z) : list Event.t :=
  [connect_event 1 1 "A"; receive_event 1 [Byte.x01];
   connect_event 2 protocol "B"].

(** "A" holds color 1 and "B" color 3 in a game for three; "C" (peer 3)
    has connected. *)
Definition colors_1_3_events : list Event.t :=
  [connect_event 1 1 "A"; receive_event 1 [Byte.x0a];
   connect_event 2 1 "B"; receive_event 2 [Byte.x0d];
   connect_event 3 1 "C"].

(** ** Joining, in terms of the state *)

(** The color a join request ends up with: its own, or the one assigned. *)
Definition derived_color (s : Server) (game : nat) (pk : pc.cmd_joingame.t)
  : option Z :=
  match pc.cmd_joingame.playercolor pk with
  | None => assign_free_color s game
  | Some c => Some c
  end.

(** The requests that pass every test of [onjoingame]. *)
Definition join_accepted (s : Server) (player : nat) (pk : pc.cmd_joingame.t)
    (game : nat) : Prop :=
  let g := game_at s game in
  Player.game (player_at s player) = None
  ∧ find_game_from_uuid s pk = Some game
  ∧ Game.is_open g = true
  ∧ Game.is_full g = false
  ∧ (Game.has_password g
     && bool_decide (pc.cmd_joingame.password pk ≠ Game.password g)) = false
  ∧ find_collision s (Game.players g) (pc.cmd_joingame.playername pk)
      (derived_color s game pk) (pc.cmd_joingame.clientid pk) = None.

(** The objects once [game.add_player(player, packet)] has run. *)
Definition joined (s : Server) (player : nat) (pk : pc.cmd_joingame.t)
    (game : nat) : Server :=
  update_game game
    (λ g, Game.set_players (Game.players g ++ [player])
                           (Game.playercnt g + 1) g)
    (update_player player
       (Player.join game (pc.cmd_joingame.clientversion pk)
          (pc.cmd_joingame.playername pk) (derived_color s game pk)
          (pc.cmd_joingame.clientid pk)) s).

(** One packet to every member of a game, in join order. *)
Definition broadcast (s : Server) (game : nat) (packet : sp.t) : list Action :=
  (λ _player, Send (Player.peer (player_at s _player)) packet)
    <$> Game.players (game_at s game).

(** The membership snapshot to every member of a game. *)
Definition gamestate_broadcast (s : Server) (game : nat) : list Action :=
  broadcast s game (sp.data_gamestate (snapshot s game)).

(** ** Leaving, in terms of the state *)

(** The players once each of [members] has been released from its game,
    as [Game.clear] does. *)
Definition released (s : Server) (members : list nat) : Server :=
  foldl (λ s' member, update_player member (Player.set_game None) s')
        s members.

(** The notice [terminategame] sends to a member when the creator of an
    open game has left. *)
Definition termination_notice (s : Server) (member : nat) : Action :=
  Send (Player.peer (player_at s member))
       (sp.cmd_error
          (S_ (player_at s member)
              "The game has been terminated. The creator has left the game.")
          ErrorType.TerminateGame).

(** "The entire game is torn down and removed from the registry, and every
    remaining member receives an explicit termination notice": [s'] is the
    state after the leave from [s], [rest] are the members that remain, and
    the notice is among what was sent since [s]. *)
Definition torn_down (s s' : Server) (game : nat) (rest : list nat) : Prop :=
  (game ∉ games s')
  ∧ ∀ member, member ∈ rest →
      ∃ message,
        Send (Player.peer (player_at s member))
             (sp.cmd_error message ErrorType.TerminateGame)
        ∈ drop (length (outbox s)) (outbox s').

(** ** The invariant of the game registry *)

(** The counter of a game is the length of its member list, and no more
    than the game allows. *)
Definition members_bounded (g : Game.t) : Prop :=
  Game.playercnt g = Z.of_nat (length (Game.players g))
  ∧ (Game.playercnt g ≤ Game.maxplayers g)%Z.

(** No game is registered twice, every registered game is an object
    created before, with bounded members, and has a member, except for
    [emptied] while a handler is about to delete it. *)
Definition registry_inv (emptied : option nat) (s : Server) : Prop :=
  NoDup (games s)
  ∧ ∀ game, game ∈ games s →
      game < next_ref s
      ∧ members_bounded (game_at s game)
      ∧ (Some game ≠ emptied → Game.players (game_at s game) ≠ []).

Definition Inv (s : Server) : Prop := registry_inv None s.

(** A state some sequence of transport events leads to, from the empty
    server, without an exception ending the run. *)
Inductive reachable (unserialize : list Byte.byte → Z → packets.parsed)
  : Server → Prop :=
  | reachable_initial languages : reachable unserialize (initial languages)
  | reachable_run_once s event s' :
      reachable unserialize s →
      run_once unserialize event s = Ok () s' →
      reachable unserialize s'.

(** "Every current member is ready." *)
Definition all_ready (s : Server) (game : nat) : Prop :=
  Forall (λ member, Player.ready (player_at s member) = true)
         (Game.players (game_at s game)).

(** "Every current member has acknowledged prepared." *)
Definition all_prepared (s : Server) (game : nat) : Prop :=
  Forall (λ member, Player.prepared (player_at s member) = true)
         (Game.players (game_at s game)).

(** [s'] has the game registry and the game objects of [s], and has
    handed out no fewer references. *)
Definition same_registry (s s' : Server) : Prop :=
  games s' = games s ∧ game_objs s' = game_objs s ∧ next_ref s ≤ next_ref s'.

(** Code that leaves the game registry and the game objects alone,
    whether it returns or raises. *)
Definition frame {A} (m : M A) : Prop :=
  ∀ s, match m s with
       | Ok _ s' => same_registry s s'
       | Raise _ s' => same_registry s s'
       end.

(** Code that keeps the invariant of the game registry. *)
Definition preserves {A} (m : M A) : Prop :=
  ∀ s, Inv s → wp m (λ _, Inv) s.

(** "The transition Open → Prepare is triggered exactly when, after a
    ready-toggle, every current member is ready", read on one step from [s]
    to [s']: a game that goes from Open to Prepare has all its members
    ready. *)
Definition prepare_only_if_all_ready (s s' : Server) (game : nat) : Prop :=
  Game.state (game_at s game) = Game.State.Open →
  Game.state (game_at s' game) = Game.State.Prepare →
  all_ready s' game.

(** "The transition to Running happens only from the Prepare state", read
    on one step from [s] to [s']. *)
Definition running_only_from_prepare (s s' : Server) (game : nat) : Prop :=
  Game.state (game_at s game) ≠ Game.State.Running →
  Game.state (game_at s' game) = Game.State.Running →
  Game.state (game_at s game) = Game.State.Prepare.

(** An example router: the state is the list of the handlers that have
    run, each handler notes its number and returns what it is told to. *)
Definition noting (n : nat) (r : option bool)
  : Router.callback (list nat) unit :=
  λ _ s, Ok r (s ++ [n]).

Definition example_callbacks
  : gmap string (list (Router.callback (list nat) unit)) :=
  {[ "event" := [noting 1 (Some false); noting 2 None; noting 3 (Some true)] ]}.

(** ** The three ways a player leaves *)

(** What [leavegame] sends when the creator of an open game leaves it with
    [rest] remaining: the membership snapshot to every remaining member,
    then the termination notice to every remaining member. *)
Definition creator_left (s : Server) (player game : nat) (rest : list nat)
    : list Action :=
  ((λ member,
      Send (Player.peer (player_at s member))
           (sp.data_gamestate
              (snapshot
                 (update_player player (Player.set_game None)
                    (update_game game
                       (Game.set_players rest
                          (Game.playercnt (game_at s game) - 1)) s))
                 game))) <$> rest)
  ++ (termination_notice s <$> rest).

(** The end of a game that its creator has left, from [s] to [s']: the game
    is torn down, what was sent since [s] is [before], then the snapshots
    and the notices of [creator_left], then [after], and the remaining
    members belong to no game any more. *)
Definition ended_by_creator (s s' : Server) (player game : nat)
    (rest : list nat) (before after : list Action) : Prop :=
  torn_down s s' game rest
  ∧ drop (length (outbox s)) (outbox s')
    = before ++ creator_left s player game rest ++ after
  ∧ ∀ member, member ∈ rest → Player.game (player_at s' member) = None.

(** A second example: "A" has created a game for three (reference 1) and
    "B" has joined it; "B" has then created a game of their own (reference
    3), which is the game "B" is in from then on, and "C" has joined that
    game. *)
Definition second_game_table : list (list Byte.byte * packets.parsed) :=
  [ ([Byte.x01], packets.Parsed (creategame_packet "A" (Some 1%Z) 3 None));
    ([Byte.x02], packets.Parsed (joingame_packet "B" 1 "player-B" (Some 2%Z) None));
    ([Byte.x03], packets.Parsed (creategame_packet "B" (Some 1%Z) 3 None));
    ([Byte.x04], packets.Parsed (joingame_packet "C" 3 "player-C" (Some 2%Z) None))
  ].

Definition second_game_codec : list Byte.byte → Z → packets.parsed :=
  table_codec second_game_table.

Definition second_game_events : list Event.t :=
  [connect_event 1 1 "A"; receive_event 1 [Byte.x01];
   connect_event 2 1 "B"; receive_event 2 [Byte.x02];
   receive_event 2 [Byte.x03];
   connect_event 3 1 "C"; receive_event 3 [Byte.x04]].

Definition second_game_state : Server :=
  state_of (run second_game_codec second_game_events (initial ∅)).

(** ** Steps that move a game on *)

(** The transport event [event] is data from the known player [player]
    that parses to [packet], which carries the session id of the player. *)
Definition received (unserialize : list Byte.byte → Z → packets.parsed)
    (s : Server) (event : Event.t) (player : nat) (packet : pc.t) : Prop :=
  Event.type event = EventType.RECEIVE
  ∧ known_player s (Event.peer event) = Some player
  ∧ unserialize (Event.packet_data event)
                (Player.protocol (player_at s player)) = packets.Parsed packet
  ∧ pc.sid packet = Player.sid (player_at s player).

(** No game has moved on from [s] to [s']: every game object is in the
    state it was in, or is Open, as a game just created is. *)
Definition no_progress (s s' : Server) : Prop :=
  ∀ game, Game.state (game_at s' game) = Game.state (game_at s game)
          ∨ Game.state (game_at s' game) = Game.State.Open.

(** Code that moves no game on, whether it returns or raises. *)
Definition keeps_states {A} (m : M A) : Prop :=
  ∀ s, no_progress s (state_of (m s)).

(** * Properties *)

(** ** The handler monad *)

Lemma wp_ret {A} (a : A) Q s : wp (ret a) Q s ↔ Q a s.
Proof. reflexivity. Qed.

Lemma wp_bind {A B} (m : M A) (k : A → M B) Q s :
  wp (bind m k) Q s ↔ wp m (λ a s', wp (k a) Q s') s.
Proof. unfold wp, bind. destruct (m s); reflexivity. Qed.

Lemma wp_gets {A} (f : Server → A) Q s : wp (gets f) Q s ↔ Q (f s) s.
Proof. reflexivity. Qed.

Lemma wp_modify f Q s : wp (modify f) Q s ↔ Q () (f s).
Proof. reflexivity. Qed.

Lemma wp_raise {A} e (Q : A → Server → Prop) s : wp (raise e) Q s ↔ True.
Proof. reflexivity. Qed.

Lemma wp_mono {A} (m : M A) (Q Q' : A → Server → Prop) s :
  (∀ a s', Q a s' → Q' a s') → wp m Q s → wp m Q' s.
Proof. unfold wp. destruct (m s); auto. Qed.

Lemma wp_for {A} (I : Server → Prop) (l : list A) (body : A → M unit) s :
  (∀ x s, x ∈ l → I s → wp (body x) (λ _, I) s) →
  I s → wp (for_ l body) (λ _, I) s.
Proof.
  revert s. induction l as [|x l IH]; intros s Hbody HI; simpl.
  - exact HI.
  - apply wp_bind. eapply wp_mono; [|apply Hbody; [left|exact HI]].
    intros [] s' HI'. apply IH; [|exact HI'].
    intros y s'' Hy. apply Hbody. by right.
Qed.

(** Running a handler step by step. *)

Lemma bind_gets {A B} (f : Server → A) (k : A → M B) s :
  bind (gets f) k s = k (f s) s.
Proof. reflexivity. Qed.

Lemma bind_modify {B} f (k : unit → M B) s :
  bind (modify f) k s = k () (f s).
Proof. reflexivity. Qed.

Lemma bind_ret {A B} (a : A) (k : A → M B) s : bind (ret a) k s = k a s.
Proof. reflexivity. Qed.

Lemma bind_raise {A B} e (k : A → M B) s : bind (raise e) k s = Raise e s.
Proof. reflexivity. Qed.

Lemma bind_bind {A B C} (m : M A) (k : A → M B) (k' : B → M C) s :
  bind (bind m k) k' s = bind m (λ a, bind (k a) k') s.
Proof. unfold bind. by destruct (m s). Qed.

Lemma bind_Ok {A B} (m : M A) (k : A → M B) s a s' :
  m s = Ok a s' → bind m k s = k a s'.
Proof. unfold bind. by intros ->. Qed.

Lemma bind_Raise {A B} (m : M A) (k : A → M B) s e s' :
  m s = Raise e s' → bind m k s = Raise e s'.
Proof. unfold bind. by intros ->. Qed.

Ltac mstep :=
  first [ rewrite bind_gets | rewrite bind_modify | rewrite bind_ret
        | rewrite bind_raise | rewrite bind_bind ];
  cbv beta.

(** ** The dispatch router *)

Section router_facts.
Context {S A : Type}.
Implicit Types (cbs : list (Router.callback S A)) (cb : Router.callback S A).
Implicit Types (args : A) (s : S).

Lemma loop_invoke_all cbs args ret s :
  Router.loop cbs args ret s =
  match Router.invoke_all cbs args s with
  | Ok rs s' => Ok (ret && Router.logical_and rs) s'
  | Raise e s' => Raise e s'
  end.
Proof.
  revert ret s. induction cbs as [|cb cbs IH]; intros ret s; simpl.
  - by rewrite andb_true_r.
  - destruct (cb args s) as [r s'|e s']; [|done].
    rewrite IH. destruct (Router.invoke_all cbs args s') as [rs s''|]; [|done].
    simpl. f_equal. unfold Router.truth. destruct r as [[]|]; simpl;
      by rewrite ?andb_true_r, ?andb_false_r, ?andb_assoc.
Qed.

Lemma invoke_all_length cbs args s rs s' :
  Router.invoke_all cbs args s = Ok rs s' → length rs = length cbs.
Proof.
  revert s rs s'. induction cbs as [|cb cbs IH]; intros s rs s'; simpl.
  - by intros [= <- _].
  - destruct (cb args s) as [r s1|]; [|done].
    destruct (Router.invoke_all cbs args s1) as [rs1 s2|] eqn:E; [|done].
    intros [= <- _]. simpl. f_equal. eauto.
Qed.

(** The result of every handler of the list is in the collected results,
    at the handler's place, produced from the state its predecessors left. *)
Lemma invoke_all_app cbs1 cbs2 args s :
  Router.invoke_all (cbs1 ++ cbs2) args s =
  match Router.invoke_all cbs1 args s with
  | Ok rs1 s1 =>
      match Router.invoke_all cbs2 args s1 with
      | Ok rs2 s2 => Ok (rs1 ++ rs2) s2
      | Raise e s2 => Raise e s2
      end
  | Raise e s1 => Raise e s1
  end.
Proof.
  revert s. induction cbs1 as [|cb cbs1 IH]; intros s; simpl.
  - by destruct (Router.invoke_all cbs2 args s).
  - destruct (cb args s) as [r s1|]; [|done]. rewrite IH.
    destruct (Router.invoke_all cbs1 args s1) as [rs1 s2|]; [|done].
    by destruct (Router.invoke_all cbs2 args s2).
Qed.

Lemma call_callbacks_single (callbacks : gmap string (list (Router.callback S A)))
    type cb args s :
  callbacks !! type = Some [cb] →
  Router.call_callbacks callbacks type args s =
  match cb args s with
  | Ok r s' => Ok (Some (Router.truth r)) s'
  | Raise e s' => Raise e s'
  end.
Proof.
  intros H. unfold Router.call_callbacks. rewrite H. simpl.
  destruct (cb args s) as [[[]|] s'|]; reflexivity.
Qed.

(** C9: firing an event whose key is in the table invokes every handler
    registered under the key, in list order and whatever the earlier ones
    returned, and returns the logical AND of their results, a result of
    [None] counting as [True]; the state it leaves is the one the last
    handler left, so the aggregate vetoes nothing. [register_callback]
    puts the handler at the head of the key's list with [prepend=True] and
    at its tail otherwise, and leaves the other keys alone. *)
Theorem call_callbacks_runs_every_handler
    (callbacks : gmap string (list (Router.callback S A))) type cbs cb args s :
  callbacks !! type = Some cbs →
  Router.call_callbacks callbacks type args s =
    match Router.invoke_all cbs args s with
    | Ok rs s' => Ok (Some (Router.logical_and rs)) s'
    | Raise e s' => Raise e s'
    end
  ∧ (∀ rs s', Router.invoke_all cbs args s = Ok rs s' →
       length rs = length cbs)
  ∧ (∃ callbacks',
       Router.register_callback callbacks type cb true = inr callbacks'
       ∧ callbacks' !! type = Some (cb :: cbs)
       ∧ ∀ k, k ≠ type → callbacks' !! k = callbacks !! k)
  ∧ (∃ callbacks',
       Router.register_callback callbacks type cb false = inr callbacks'
       ∧ callbacks' !! type = Some (cbs ++ [cb])
       ∧ ∀ k, k ≠ type → callbacks' !! k = callbacks !! k).
Proof.
  intros Hcbs. split_and!.
  - unfold Router.call_callbacks. rewrite Hcbs, loop_invoke_all.
    by destruct (Router.invoke_all cbs args s).
  - intros rs s'. apply invoke_all_length.
  - unfold Router.register_callback. rewrite Hcbs. eexists. split; [done|].
    split; [apply lookup_insert_eq|]. intros k Hk. by apply lookup_insert_ne.
  - unfold Router.register_callback. rewrite Hcbs. eexists. split; [done|].
    split; [apply lookup_insert_eq|]. intros k Hk. by apply lookup_insert_ne.
Qed.

Lemma call_callbacks_unknown_key
    (callbacks : gmap string (list (Router.callback S A))) type cb args s b :
  callbacks !! type = None →
  Router.call_callbacks callbacks type args s = Ok None s
  ∧ Router.register_callback callbacks type cb b
    = inl (TypeError "Unsupported type").
Proof.
  intros H. unfold Router.call_callbacks, Router.register_callback.
  by rewrite H.
Qed.

End router_facts.

(** ** The tables of [__init__] *)

Lemma callbacks_game_preparegame :
  callbacks_game !! "preparegame" = Some [preparegame].
Proof. reflexivity. Qed.

Lemma callbacks_game_startgame :
  callbacks_game !! "startgame" = Some [startgame].
Proof. reflexivity. Qed.

Lemma callbacks_game_deletegame :
  callbacks_game !! "deletegame" = Some [deletegame].
Proof. reflexivity. Qed.

Lemma callbacks_gamedata_gamedata :
  callbacks_gamedata !! "gamedata" = Some [gamedata].
Proof. reflexivity. Qed.

Lemma callbacks_terminategame_terminategame :
  callbacks_terminategame !! "terminategame" = Some [terminategame].
Proof. reflexivity. Qed.

Lemma callbacks_leavegame_leavegame :
  callbacks_leavegame !! "leavegame" = Some [leavegame].
Proof. reflexivity. Qed.

(** Every packet class but the unhandled ones has exactly one handler. *)
Lemma callbacks_packet_class (body : pc.cmd) :
  callbacks_packet !! pc.class_of body =
  match body with
  | pc.cmd_error _ => Some [onerror]
  | pc.cmd_fatalerror _ => Some [onfatalerror]
  | pc.cmd_sessionprops _ => Some [onsessionprops]
  | pc.cmd_creategame _ => Some [oncreategame]
  | pc.cmd_listgames _ => Some [onlistgames]
  | pc.cmd_joingame _ => Some [onjoingame]
  | pc.cmd_leavegame => Some [onleavegame]
  | pc.cmd_chatmsg _ => Some [onchat]
  | pc.cmd_changename _ => Some [onchangename]
  | pc.cmd_changecolor _ => Some [onchangecolor]
  | pc.cmd_preparedgame => Some [onpreparedgame]
  | pc.cmd_toggleready => Some [ontoggleready]
  | pc.cmd_kickplayer _ => Some [onkick]
  | pc.cmd_other _ => None
  end.
Proof.
  destruct body; reflexivity.
Qed.

Section callbacks_event_facts.
Variable unserialize : list Byte.byte → Z → packets.parsed.

Lemma callbacks_event_onconnect :
  callbacks_event unserialize !! "onconnect" = Some [onconnect].
Proof. reflexivity. Qed.

Lemma callbacks_event_ondisconnect :
  callbacks_event unserialize !! "ondisconnect" = Some [ondisconnect].
Proof. reflexivity. Qed.

Lemma callbacks_event_onreceive :
  callbacks_event unserialize !! "onreceive" = Some [onreceive unserialize].
Proof. reflexivity. Qed.
End callbacks_event_facts.

(** ** Replies *)

Lemma set_outbox_set_outbox f g s :
  set_outbox f (set_outbox g s) = set_outbox (λ o, f (g o)) s.
Proof. reflexivity. Qed.

Lemma set_outbox_app acts1 acts2 s :
  set_outbox (λ o, o ++ acts2) (set_outbox (λ o, o ++ acts1) s)
  = set_outbox (λ o, o ++ (acts1 ++ acts2)) s.
Proof. destruct s; unfold set_outbox; simpl. by rewrite <- app_assoc. Qed.

Lemma set_outbox_nil s : set_outbox (λ o, o ++ []) s = s.
Proof. destruct s; unfold set_outbox; simpl. by rewrite app_nil_r. Qed.

Lemma error_eq player message _type s :
  error player message _type s = Ok () (after_error s player message _type).
Proof. reflexivity. Qed.

Lemma fatalerror_eq player message s :
  fatalerror player message true s
  = Ok () (after_fatalerror s player message).
Proof.
  unfold fatalerror, _fatalerror, after_fatalerror, disconnect, send, bind,
    gets, modify. simpl. destruct s; unfold set_outbox, set_peer_connected;
    simpl. by rewrite <- app_assoc.
Qed.

(** ** Receiving a packet *)

Section receive_facts.
Variable unserialize : list Byte.byte → Z → packets.parsed.

(** What [onreceive] does with the data of a known player who is in no
    running game, when the data respects the global size limit. *)
Lemma onreceive_parsed event s player :
  known_player s (Event.peer event) = Some player →
  (Z.of_nat (length (Event.packet_data event)) ≤ maxpacketsize)%Z →
  in_running_game s player = false →
  onreceive unserialize event s =
  match unserialize (Event.packet_data event)
                    (Player.protocol (player_at s player)) with
  | packets.RaisedSoftNetworkException e =>
      Ok None (after_error s player e ErrorType.NotSet)
  | packets.RaisedPacketTooLarge e =>
      Ok None (after_fatalerror s player (per_packet_size_message e))
  | packets.RaisedException e =>
      Ok None (after_fatalerror s player
                 "Unknown or malformed packet. Please check your game version")
  | packets.Parsed packet =>
      if bool_decide (pc.sid packet ≠ Player.sid (player_at s player)) then
        Ok None (after_fatalerror s player "Invalid/Unknown session")
      else if bool_decide
                (callbacks_packet !! pc.class_of (pc.body packet) = None)
      then Ok None s
      else
        (call_callbacks callbacks_packet (pc.class_of (pc.body packet))
                        (player, packet) >> return_None) s
  end.
Proof.
  intros Hknown Hsize Hrun. unfold onreceive.
  unfold bind at 1. unfold gets at 1. unfold id. rewrite Hknown.
  apply Z.ltb_ge in Hsize. rewrite Hsize, Hrun.
  destruct (unserialize _ _) as [packet|e|e|e].
  - destruct (bool_decide (pc.sid packet ≠ _)).
    + unfold bind. by rewrite fatalerror_eq.
    + destruct (bool_decide (_ = None)); reflexivity.
  - reflexivity.
  - unfold bind. by rewrite fatalerror_eq.
  - unfold bind. by rewrite fatalerror_eq.
Qed.

(** A player in a running game: the data goes to [gamedata] as it is, and
    neither the codec nor the session id of the packet is looked at. *)
Lemma onreceive_running event s player :
  known_player s (Event.peer event) = Some player →
  (Z.of_nat (length (Event.packet_data event)) ≤ maxpacketsize)%Z →
  in_running_game s player = true →
  onreceive unserialize event s =
  (gamedata (player, Event.packet_data event) >> return_None) s.
Proof.
  intros Hknown Hsize Hrun. unfold onreceive.
  unfold bind at 1. unfold gets at 1. unfold id. rewrite Hknown.
  apply Z.ltb_ge in Hsize. rewrite Hsize, Hrun.
  unfold bind, call_callbacks.
  rewrite (call_callbacks_single _ _ _ _ _ callbacks_gamedata_gamedata).
  by destruct (gamedata _ s).
Qed.

(** Data beyond the global packet size is answered with a fatal error. *)
Lemma onreceive_global_size_exceeded event s player :
  known_player s (Event.peer event) = Some player →
  (maxpacketsize < Z.of_nat (length (Event.packet_data event)))%Z →
  onreceive unserialize event s =
  Ok None (after_fatalerror s player
     ("You've exceeded the global packet size." +:+ " " +:+
      "This should never happen. Please contact us or file a bug report.")).
Proof.
  intros Hknown Hsize. unfold onreceive.
  unfold bind at 1. unfold gets at 1. unfold id. rewrite Hknown.
  apply Z.ltb_lt in Hsize. rewrite Hsize.
  unfold bind. by rewrite fatalerror_eq.
Qed.

(** C1, as amended: a known player who is in no running game sends data
    within the global size limit that parses to a packet whose session id
    is not the player's own: whatever the class and the fields of the
    packet, the server sends the player the fatal error "Invalid/Unknown
    session" and disconnects the peer, and no handler runs. *)
Theorem session_mismatch_is_fatal event s player packet :
  known_player s (Event.peer event) = Some player →
  (Z.of_nat (length (Event.packet_data event)) ≤ maxpacketsize)%Z →
  in_running_game s player = false →
  unserialize (Event.packet_data event) (Player.protocol (player_at s player))
    = packets.Parsed packet →
  pc.sid packet ≠ Player.sid (player_at s player) →
  onreceive unserialize event s
    = Ok None (after_fatalerror s player "Invalid/Unknown session")
  ∧ fatal_response s (state_of (onreceive unserialize event s)) player.
Proof.
  intros Hknown Hsize Hrun Hparse Hsid.
  rewrite (onreceive_parsed _ _ _ Hknown Hsize Hrun), Hparse.
  rewrite bool_decide_true by done. split; [done|]. by eexists.
Qed.

(** C3, as amended: a known player who is in no running game sends data
    within the global size limit that the codec refuses as larger than its
    class allows: the server sends a fatal error whose text ends with the
    codec's account of the violation, and disconnects the peer; the
    registries and the game memberships are as before. Data beyond the
    global size limit is answered with a fatal error and a disconnect as
    well. *)
Theorem per_packet_size_exceeded_is_fatal event s player :
  known_player s (Event.peer event) = Some player →
  (∀ e,
     (Z.of_nat (length (Event.packet_data event)) ≤ maxpacketsize)%Z →
     in_running_game s player = false →
     unserialize (Event.packet_data event)
                 (Player.protocol (player_at s player))
       = packets.RaisedPacketTooLarge e →
     let s' := after_fatalerror s player (per_packet_size_message e) in
     onreceive unserialize event s = Ok None s'
     ∧ fatal_response s s' player
     ∧ players s' = players s ∧ games s' = games s
     ∧ game_objs s' = game_objs s ∧ player_objs s' = player_objs s)
  ∧ ((maxpacketsize < Z.of_nat (length (Event.packet_data event)))%Z →
     ∃ s', onreceive unserialize event s = Ok None s'
           ∧ fatal_response s s' player).
Proof.
  intros Hknown. split.
  - intros e Hsize Hrun Hparse s'.
    rewrite (onreceive_parsed _ _ _ Hknown Hsize Hrun), Hparse.
    split_and!; try done. by eexists.
  - intros Hsize. eexists. split.
    + by apply onreceive_global_size_exceeded.
    + by eexists.
Qed.

(** C2: a create-game request with fewer players than the minimum, from a
    known player in no running game, with the right session id: the
    [SoftNetworkException] of [oncreategame] is caught neither by
    [onreceive] nor by [call_callbacks] nor by the loop of [run]: nothing is
    sent to the player, and the loop ends with the exception, whatever
    events were still to come. *)
Theorem creategame_exception_ends_run event rest s player packet pk :
  Event.type event = EventType.RECEIVE →
  known_player s (Event.peer event) = Some player →
  (Z.of_nat (length (Event.packet_data event)) ≤ maxpacketsize)%Z →
  in_running_game s player = false →
  unserialize (Event.packet_data event) (Player.protocol (player_at s player))
    = packets.Parsed packet →
  pc.sid packet = Player.sid (player_at s player) →
  pc.body packet = pc.cmd_creategame pk →
  (pc.cmd_creategame.maxplayers pk < minplayers)%Z →
  run unserialize (event :: rest) s
  = Raise (SoftNetworkException
             "You can't run a game with less than 2 players") s.
Proof.
  intros Htype Hknown Hsize Hrun Hparse Hsid Hbody Hmax.
  simpl. unfold bind at 1. unfold run_once. rewrite Htype.
  unfold bind at 1. unfold call_callbacks.
  rewrite (call_callbacks_single _ _ _ _ _ (callbacks_event_onreceive _)).
  rewrite (onreceive_parsed _ _ _ Hknown Hsize Hrun), Hparse.
  rewrite bool_decide_false by (intros H; by apply H).
  rewrite callbacks_packet_class, Hbody.
  rewrite bool_decide_false by done.
  unfold bind at 1. unfold call_callbacks.
  rewrite (call_callbacks_single _ _ _ _ _
             (eq_trans (callbacks_packet_class (pc.cmd_creategame pk)) eq_refl)).
  unfold oncreategame. rewrite Hbody.
  apply Z.ltb_lt in Hmax. by rewrite Hmax.
Qed.

End receive_facts.

(** *** The claims about [onreceive] on example traffic *)

(** "A" is connected and in no game, and sends a chat packet that carries
    the session id "Z". *)
Lemma session_mismatch_is_fatal_witness :
  let s := state_after connected_events in
  let event := receive_event 1 [Byte.x07] in
  onreceive example_codec event s
    = Ok None (after_fatalerror s 0 "Invalid/Unknown session")
  ∧ fatal_response s (state_of (onreceive example_codec event s)) 0.
Proof.
  intros s event.
  apply (session_mismatch_is_fatal example_codec event s 0
           (plain_packet "Z" (pc.cmd_chatmsg "hello"))).
  - vm_compute. reflexivity.
  - vm_compute. discriminate.
  - vm_compute. reflexivity.
  - vm_compute. reflexivity.
  - vm_compute. discriminate.
Defined.

(** C1 as stated fails once the game of the player is running: "A" and "B"
    play, and the peer of "A" sends bytes that parse to a packet with the
    session id "Z". [onreceive] takes its short path: the bytes are relayed
    to "B", "A" gets no fatal error and stays connected. *)
Lemma session_mismatch_relayed_when_running :
  let s := state_after running_events in
  let event := receive_event 1 [Byte.x07] in
  let s' := state_of (onreceive example_codec event s) in
  known_player s 1 = Some 0
  ∧ in_running_game s 0 = true
  ∧ (∃ packet,
       example_codec [Byte.x07] (Player.protocol (player_at s 0))
         = packets.Parsed packet
       ∧ pc.sid packet ≠ Player.sid (player_at s 0))
  ∧ onreceive example_codec event s
    = Ok None (set_outbox (λ o, o ++ [SendRaw 2 [Byte.x07]]) s)
  ∧ 1 ∈ peer_connected s'
  ∧ ¬ fatal_response s s' 0.
Proof.
  intros s event s'. split_and!.
  - vm_compute. reflexivity.
  - vm_compute. reflexivity.
  - eexists. split; [vm_compute; reflexivity|]. vm_compute. discriminate.
  - vm_compute. reflexivity.
  - apply (bool_decide_unpack (1 ∈ _)). vm_compute. exact I.
  - intros [message H]. apply (f_equal outbox) in H.
    vm_compute in H. discriminate H.
Qed.

(** "A" is connected and in no game, and sends bytes the codec refuses as
    too large for their class. *)
Lemma per_packet_size_exceeded_is_fatal_witness :
  let s := state_after connected_events in
  let event := receive_event 1 oversized_chatmsg in
  let s' := after_fatalerror s 0
              (per_packet_size_message "packet=cmd_chatmsg, length=100)") in
  onreceive example_codec event s = Ok None s'
  ∧ fatal_response s s' 0
  ∧ players s' = players s ∧ games s' = games s
  ∧ game_objs s' = game_objs s ∧ player_objs s' = player_objs s.
Proof.
  intros s event.
  apply (per_packet_size_exceeded_is_fatal example_codec event s 0).
  - vm_compute. reflexivity.
  - vm_compute. discriminate.
  - vm_compute. reflexivity.
  - vm_compute. reflexivity.
Defined.

(** C3 as stated fails on the same traffic: the answer to a packet within
    the global limit but beyond the limit of its class is no soft error,
    and the peer does not stay connected. *)
Lemma per_packet_size_exceeded_is_not_soft :
  let s := state_after connected_events in
  let event := receive_event 1 oversized_chatmsg in
  let s' := state_of (onreceive example_codec event s) in
  known_player s 1 = Some 0
  ∧ (Z.of_nat (length (Event.packet_data event)) ≤ maxpacketsize)%Z
  ∧ example_codec oversized_chatmsg (Player.protocol (player_at s 0))
    = packets.RaisedPacketTooLarge "packet=cmd_chatmsg, length=100)"
  ∧ 1 ∈ peer_connected s
  ∧ (1 ∉ peer_connected s')
  ∧ outbox s' = outbox s ++
      [Send 1 (sp.cmd_fatalerror
                 (untranslated
                    (per_packet_size_message "packet=cmd_chatmsg, length=100)")));
       Disconnect 1 true]
  ∧ ¬ soft_response s s' 0.
Proof.
  intros s event s'. split_and!.
  - vm_compute. reflexivity.
  - vm_compute. discriminate.
  - vm_compute. reflexivity.
  - apply (bool_decide_unpack (1 ∈ _)). vm_compute. exact I.
  - apply (bool_decide_unpack (1 ∉ peer_connected s')). vm_compute. exact I.
  - vm_compute. reflexivity.
  - intros [message H]. apply (f_equal outbox) in H.
    vm_compute in H. discriminate H.
Qed.

(** "A" is connected and asks for a game for one player: the run ends with
    the exception, and the events that follow are never handled. *)
Lemma creategame_exception_ends_run_witness :
  let s := state_after connected_events in
  run example_codec [receive_event 1 [Byte.x08]; receive_event 1 [Byte.x01]] s
  = Raise (SoftNetworkException
             "You can't run a game with less than 2 players") s.
Proof.
  intros s.
  eapply (creategame_exception_ends_run example_codec
            (receive_event 1 [Byte.x08]) [receive_event 1 [Byte.x01]] s 0
            (creategame_packet "A" (Some 1%Z) 1 None)).
  - reflexivity.
  - vm_compute. reflexivity.
  - vm_compute. discriminate.
  - vm_compute. reflexivity.
  - vm_compute. reflexivity.
  - vm_compute. reflexivity.
  - reflexivity.
  - vm_compute. reflexivity.
Defined.

(** ** Loops that only send *)

Lemma for_log {A} (l : list A) (body : A → M unit)
    (acts : Server → A → list Action) s :
  (∀ x s', body x s' = Ok () (set_outbox (λ o, o ++ acts s' x) s')) →
  (∀ x out s', acts (set_outbox (λ o, o ++ out) s') x = acts s' x) →
  for_ l body s = Ok () (set_outbox (λ o, o ++ concat (acts s <$> l)) s).
Proof.
  intros Hbody Hacts. revert s. induction l as [|x l IH]; intros s; simpl.
  - unfold ret. by rewrite set_outbox_nil.
  - unfold bind. rewrite Hbody, IH, set_outbox_app.
    assert (acts (set_outbox (λ o, o ++ acts s x) s) <$> l = acts s <$> l)
      as -> by (apply list_fmap_ext; intros; apply Hacts).
    reflexivity.
Qed.

Lemma for_send {A} (l : list A) (body : A → M unit) (act : Server → A → Action) s :
  (∀ x s', body x s' = Ok () (set_outbox (λ o, o ++ [act s' x]) s')) →
  (∀ x out s', act (set_outbox (λ o, o ++ out) s') x = act s' x) →
  for_ l body s = Ok () (set_outbox (λ o, o ++ (act s <$> l)) s).
Proof.
  intros Hbody Hact.
  rewrite (for_log l body (λ s x, [act s x])); [|done|].
  - assert (concat ((λ x, [act s x]) <$> l) = act s <$> l) as ->; [|done].
    induction l; simpl; by f_equal.
  - intros. by rewrite Hact.
Qed.

Lemma send_gamestate_eq game s :
  send_gamestate game s
  = Ok () (set_outbox (λ o, o ++ gamestate_broadcast s game) s).
Proof.
  unfold send_gamestate, bind at 1, gets at 1.
  by rewrite (for_send _ _ (λ s x, Send (Player.peer (player_at s x))
                                      (sp.data_gamestate (snapshot s game)))).
Qed.

Lemma preparegame_eq game s :
  preparegame game s
  = Ok None (let s1 := update_game game (Game.set_state Game.State.Prepare) s in
             set_outbox (λ o, o ++ broadcast s1 game sp.cmd_preparegame) s1).
Proof.
  unfold preparegame, bind at 1, modify at 1, bind at 1, gets at 1, bind.
  by rewrite (for_send _ _ (λ s x, Send (Player.peer (player_at s x))
                                      sp.cmd_preparegame)).
Qed.

Lemma startgame_eq game s :
  startgame game s
  = Ok None (let s1 := update_game game (Game.set_state Game.State.Running) s in
             set_outbox (λ o, o ++ broadcast s1 game sp.cmd_startgame) s1).
Proof.
  unfold startgame, bind at 1, modify at 1, bind at 1, gets at 1, bind.
  by rewrite (for_send _ _ (λ s x, Send (Player.peer (player_at s x))
                                      sp.cmd_startgame)).
Qed.

(** ** Objects after an update *)

Lemma game_at_update_game game f s :
  game_at (update_game game f s) game = f (game_at s game).
Proof. unfold game_at, update_game; simpl. apply lookup_total_insert_eq. Qed.

Lemma game_at_update_game_ne game game' f s :
  game ≠ game' → game_at (update_game game f s) game' = game_at s game'.
Proof.
  intros. unfold game_at, update_game; simpl. by apply lookup_total_insert_ne.
Qed.

Lemma player_at_update_player player f s :
  player_at (update_player player f s) player = f (player_at s player).
Proof. unfold player_at, update_player; simpl. apply lookup_total_insert_eq. Qed.

Lemma player_at_update_player_ne player player' f s :
  player ≠ player' →
  player_at (update_player player f s) player' = player_at s player'.
Proof.
  intros. unfold player_at, update_player; simpl.
  by apply lookup_total_insert_ne.
Qed.

(** Reading through an update of another part of the state. *)

Lemma player_at_set_outbox f s r :
  player_at (set_outbox f s) r = player_at s r.
Proof. reflexivity. Qed.

Lemma game_at_set_outbox f s r : game_at (set_outbox f s) r = game_at s r.
Proof. reflexivity. Qed.

Lemma player_at_update_game game f s r :
  player_at (update_game game f s) r = player_at s r.
Proof. reflexivity. Qed.

Lemma game_at_update_player player f s r :
  game_at (update_player player f s) r = game_at s r.
Proof. reflexivity. Qed.

Lemma outbox_set_outbox f s : outbox (set_outbox f s) = f (outbox s).
Proof. reflexivity. Qed.

Lemma outbox_update_game game f s : outbox (update_game game f s) = outbox s.
Proof. reflexivity. Qed.

Lemma outbox_update_player player f s :
  outbox (update_player player f s) = outbox s.
Proof. reflexivity. Qed.

Lemma games_set_outbox f s : games (set_outbox f s) = games s.
Proof. reflexivity. Qed.

Lemma games_update_game game f s : games (update_game game f s) = games s.
Proof. reflexivity. Qed.

Lemma games_update_player player f s :
  games (update_player player f s) = games s.
Proof. reflexivity. Qed.

Lemma broadcast_set_outbox f s game packet :
  broadcast (set_outbox f s) game packet = broadcast s game packet.
Proof. reflexivity. Qed.

Lemma gamestate_broadcast_set_outbox f s game :
  gamestate_broadcast (set_outbox f s) game = gamestate_broadcast s game.
Proof. reflexivity. Qed.

Lemma snapshot_set_outbox f s game :
  snapshot (set_outbox f s) game = snapshot s game.
Proof. reflexivity. Qed.

Create Rewrite HintDb server.

#[local] Hint Rewrite
  player_at_set_outbox game_at_set_outbox player_at_update_game
  game_at_update_player outbox_set_outbox outbox_update_game
  outbox_update_player games_set_outbox games_update_game
  games_update_player broadcast_set_outbox gamestate_broadcast_set_outbox
  snapshot_set_outbox game_at_update_game player_at_update_player : server.

(** ** The color of a join without a color *)

Lemma range_lookup a b i x :
  range a b !! i = Some x ↔ x = (a + Z.of_nat i)%Z ∧ i < Z.to_nat (b - a).
Proof.
  unfold range. rewrite list_lookup_fmap, fmap_Some. split.
  - intros (j & [-> Hj]%lookup_seq & ->). split; [done|lia].
  - intros [-> Hi]. exists i. split; [|done]. apply lookup_seq. split; [done|lia].
Qed.

Lemma range_length a b : length (range a b) = Z.to_nat (b - a).
Proof. unfold range. by rewrite length_fmap, length_seq. Qed.

Lemma range_NoDup a b : NoDup (range a b).
Proof.
  apply NoDup_alt. intros i j x [-> _]%range_lookup [Hx _]%range_lookup. lia.
Qed.

(** The loop stops at the first candidate that is no color of a member. *)
Lemma first_not_in_stops candidates colors color :
  Exists (λ c, Some c ∉ colors) candidates →
  ∃ pre c post,
    candidates = pre ++ c :: post
    ∧ first_not_in candidates colors color = Some c
    ∧ (Some c ∉ colors)
    ∧ Forall (λ x, Some x ∈ colors) pre.
Proof.
  revert color. induction candidates as [|x l IH]; intros color Hex.
  - by apply Exists_nil in Hex.
  - simpl. case_bool_decide as Hx.
    + apply Exists_cons in Hex as [Hex|Hex]; [done|].
      destruct (IH (Some x) Hex) as (pre & c & post & -> & Hc & Hnot & Hpre).
      exists (x :: pre), c, post. split_and!; try done. by constructor.
    + exists [], x, l. split_and!; try done.
Qed.

(** Among one candidate more than there are members, one is free. *)
Lemma range_has_unused (colors : list (option Z)) :
  Exists (λ c, Some c ∉ colors)
         (range 1 (Z.of_nat (length colors) + 2)).
Proof.
  set (candidates := range 1 (Z.of_nat (length colors) + 2)).
  destruct (decide (Forall (λ c, Some c ∈ colors) candidates)) as [Hall|Hex].
  - exfalso.
    assert (length (Some <$> candidates) ≤ length colors) as Hlen.
    { apply submseteq_length, NoDup_submseteq.
      - apply (NoDup_fmap_2 _). apply range_NoDup.
      - intros y (c & -> & Hc)%list_elem_of_fmap.
        by eapply Forall_forall in Hall. }
    rewrite length_fmap in Hlen. unfold candidates in Hlen.
    rewrite range_length in Hlen. lia.
  - apply not_Forall_Exists in Hex; [|apply _].
    eapply Exists_impl; [exact Hex|]. simpl. auto.
Qed.

(** The integer [assign_free_color] picks is the smallest positive one that
    no member of the game holds. *)
Lemma assign_free_color_smallest s game :
  ∃ c, assign_free_color s game = Some c
       ∧ smallest_unused (colors_of s game) c.
Proof.
  unfold assign_free_color. fold (colors_of s game).
  destruct (first_not_in_stops _ (colors_of s game) None
              (range_has_unused (colors_of s game)))
    as (pre & c & post & Hsplit & Hc & Hnot & Hpre).
  exists c. split; [done|].
  assert (range 1 (Z.of_nat (length (colors_of s game)) + 2) !! length pre
          = Some c) as Hat.
  { rewrite Hsplit. by apply list_lookup_middle. }
  apply range_lookup in Hat as [-> Hlt].
  split_and!; [lia|done|].
  intros c' Hc'.
  assert (pre !! Z.to_nat (c' - 1) = Some c') as Hin.
  { assert (range 1 (Z.of_nat (length (colors_of s game)) + 2)
              !! Z.to_nat (c' - 1) = Some c') as Hr.
    { apply range_lookup. split; lia. }
    rewrite Hsplit, lookup_app_l in Hr by lia. done. }
  eapply Forall_forall in Hpre; [exact Hpre|].
  by eapply list_elem_of_lookup_2.
Qed.

(** The example of the specification: with members holding the colors 1
    and 3, the color assigned is 2. *)
Example first_not_in_1_3 :
  first_not_in (range 1 (Z.of_nat (length [Some 1%Z; Some 3%Z]) + 2))
               [Some 1%Z; Some 3%Z] None = Some 2%Z.
Proof. reflexivity. Qed.

(** ** Joining a game *)

Lemma find_game_from_uuid_registered s pk game :
  find_game_from_uuid s pk = Some game → game ∈ games s.
Proof.
  unfold find_game_from_uuid. intros H.
  apply bind_Some in H as ([i g] & (Hi & _)%list_find_Some & [= <-]).
  by eapply list_elem_of_lookup_2.
Qed.

(** A member with the name, the color or the client id of the request
    makes the uniqueness loop stop with a message. *)
Lemma find_collision_found s members playername playercolor clientid m :
  m ∈ members →
  Player.name (player_at s m) = Some playername
  ∨ Player.color (player_at s m) = playercolor
  ∨ Player.clientid (player_at s m) = Some clientid →
  is_Some (find_collision s members playername playercolor clientid).
Proof.
  induction members as [|x l IH]; intros Hm Hc; [by apply elem_of_nil in Hm|].
  simpl. repeat case_bool_decide; try done.
  apply elem_of_cons in Hm as [->|Hm]; [|by apply IH].
  by destruct Hc as [?|[?|?]].
Qed.

Lemma find_collision_none s members playername playercolor clientid :
  find_collision s members playername playercolor clientid = None →
  Forall (λ m, Player.name (player_at s m) ≠ Some playername
               ∧ Player.color (player_at s m) ≠ playercolor
               ∧ Player.clientid (player_at s m) ≠ Some clientid) members.
Proof.
  induction members as [|x l IH]; intros H; [constructor|].
  simpl in H. repeat case_bool_decide; try done. constructor; auto.
Qed.

(** What [onjoingame] does with a request that passes its tests. *)
Lemma onjoingame_accepted s player packet pk game :
  pc.body packet = pc.cmd_joingame pk →
  join_accepted s player pk game →
  onjoingame (player, packet) s =
  Ok None
     (let s1 := joined s player pk game in
      let s2 := set_outbox (λ o, o ++ gamestate_broadcast s1 game) s1 in
      if bool_decide (Player.protocol (player_at s1 player) = 0%Z)
         && Game.is_full (game_at s1 game)
      then
        let s3 := update_game game (Game.set_state Game.State.Prepare) s2 in
        set_outbox (λ o, o ++ broadcast s3 game sp.cmd_preparegame) s3
      else s2).
Proof.
  intros Hbody (Hnone & Hfind & Hopen & Hfull & Hpw & Hcoll).
  unfold onjoingame. rewrite Hbody. mstep. unfold id.
  rewrite Hnone, bool_decide_false by (intros H; by apply H).
  rewrite Hfind, Hopen, Hfull, Hpw. cbv beta iota delta [negb].
  fold (derived_color s game pk). rewrite Hcoll.
  unfold add_player. repeat mstep. fold (joined s player pk game).
  rewrite (bind_Ok _ _ _ _ _ (send_gamestate_eq _ _)). repeat mstep.
  change (player_at (set_outbox ?f ?x) ?p) with (player_at x p).
  change (game_at (set_outbox ?f ?x) ?g) with (game_at x g).
  destruct (bool_decide (Player.protocol _ = 0%Z)); [|reflexivity].
  destruct (Game.is_full (game_at (joined s player pk game) game));
    [|reflexivity]. cbv beta iota delta [andb].
  unfold bind, call_callbacks.
  rewrite (call_callbacks_single _ _ _ _ _ callbacks_game_preparegame).
  by rewrite preparegame_eq.
Qed.

(** What [onjoingame] does on each of its error paths: one soft error to
    the player who asked. *)
Lemma onjoingame_refused s player packet pk :
  pc.body packet = pc.cmd_joingame pk →
  (∀ game, ¬ join_accepted s player pk game) →
  ∃ message,
    onjoingame (player, packet) s
    = Ok None (after_error s player message ErrorType.NotSet).
Proof.
  intros Hbody Hrefused. unfold onjoingame. rewrite Hbody. mstep. unfold id.
  case_bool_decide as Hgame; [by eexists|].
  destruct (find_game_from_uuid s pk) as [game|] eqn:Hfind; [|by eexists].
  destruct (Game.is_open (game_at s game)) eqn:Hopen; [|by eexists].
  destruct (Game.is_full (game_at s game)) eqn:Hfull; [by eexists|].
  cbv beta iota delta [negb].
  destruct (Game.has_password _ && _) eqn:Hpw; [by eexists|].
  fold (derived_color s game pk).
  destruct (find_collision s _ _ _ _) eqn:Hcoll; [by eexists|].
  destruct (Hrefused game). by split_and!.
Qed.

Lemma joined_player s player pk game :
  player_at (joined s player pk game) player
  = Player.join game (pc.cmd_joingame.clientversion pk)
      (pc.cmd_joingame.playername pk) (derived_color s game pk)
      (pc.cmd_joingame.clientid pk) (player_at s player).
Proof.
  unfold joined.
  change (player_at (update_game ?g ?f ?x) ?p) with (player_at x p).
  apply player_at_update_player.
Qed.

Lemma joined_game s player pk game :
  game_at (joined s player pk game) game
  = Game.set_players (Game.players (game_at s game) ++ [player])
      (Game.playercnt (game_at s game) + 1) (game_at s game).
Proof.
  unfold joined. rewrite game_at_update_game.
  by change (game_at (update_player ?r ?f ?x) ?g) with (game_at x g).
Qed.

(** C7: a join request for a game one of whose members has the name, the
    color (the requested one, or the one assigned when none is requested)
    or the client id of the request gets a soft error, sent to the player
    who asked, and nothing but the outbox changes: the registries, the
    games with their member lists and the players are as before. *)
Theorem join_collision_is_soft_error s player packet pk game m :
  pc.body packet = pc.cmd_joingame pk →
  find_game_from_uuid s pk = Some game →
  m ∈ Game.players (game_at s game) →
  Player.name (player_at s m) = Some (pc.cmd_joingame.playername pk)
  ∨ Player.color (player_at s m) = derived_color s game pk
  ∨ Player.clientid (player_at s m) = Some (pc.cmd_joingame.clientid pk) →
  ∃ s', onjoingame (player, packet) s = Ok None s'
        ∧ soft_response s s' player
        ∧ games s' = games s ∧ players s' = players s
        ∧ game_objs s' = game_objs s ∧ player_objs s' = player_objs s.
Proof.
  intros Hbody Hfind Hm Hcollide.
  destruct (onjoingame_refused s player packet pk Hbody) as [message Hrun].
  - intros game' (_ & Hfind' & _ & _ & _ & Hnone).
    assert (game' = game) as -> by congruence.
    destruct (find_collision_found s _ _ _ _ m Hm Hcollide) as [? Hsome].
    congruence.
  - exists (after_error s player message ErrorType.NotSet).
    split_and!; try done. by exists message.
Qed.

(** "A" has created a game under the name "player-A"; "B" asks to join it
    under that name. *)
Lemma join_collision_is_soft_error_witness :
  let s := state_after (before_last_join_events 1) in
  known_player s 2 = Some 2
  ∧ ∃ s', onjoingame (2, joingame_packet "B" 1 "player-A" (Some 2%Z) None) s
        = Ok None s'
        ∧ soft_response s s' 2
        ∧ games s' = games s ∧ players s' = players s
        ∧ game_objs s' = game_objs s ∧ player_objs s' = player_objs s.
Proof.
  intros s. split; [vm_compute; reflexivity|].
  eapply (join_collision_is_soft_error s 2 _ _ 1 0).
  - reflexivity.
  - vm_compute. reflexivity.
  - apply (bool_decide_unpack (0 ∈ _)). vm_compute. exact I.
  - left. vm_compute. reflexivity.
Defined.

(** C8: a join request without a color that [onjoingame] accepts leaves the
    joining player with the smallest positive integer that no member of
    the game held as color. *)
Theorem join_without_color_gets_smallest_unused s player packet pk game :
  pc.body packet = pc.cmd_joingame pk →
  pc.cmd_joingame.playercolor pk = None →
  join_accepted s player pk game →
  ∃ c s', onjoingame (player, packet) s = Ok None s'
          ∧ Player.color (player_at s' player) = Some c
          ∧ smallest_unused (colors_of s game) c.
Proof.
  intros Hbody Hcolor Hacc.
  destruct (assign_free_color_smallest s game) as (c & Hc & Hsmall).
  exists c. eexists. split; [by apply onjoingame_accepted|].
  split; [|done]. cbv zeta.
  assert (Player.color (player_at (joined s player pk game) player) = Some c)
    as Hjoined.
  { rewrite joined_player. simpl. unfold derived_color. by rewrite Hcolor. }
  by destruct (_ && _).
Qed.

(** The example of the specification: "A" holds color 1 and "B" color 3,
    and "C" joins without a color. *)
Lemma join_without_color_gets_smallest_unused_witness :
  let s := state_after colors_1_3_events in
  known_player s 3 = Some 3
  ∧ colors_of s 1 = [Some 1%Z; Some 3%Z]
  ∧ ∃ c s', onjoingame (3, joingame_packet "C" 1 "player-C" None None) s
            = Ok None s'
            ∧ Player.color (player_at s' 3) = Some c
            ∧ smallest_unused (colors_of s 1) c.
Proof.
  intros s. split; [vm_compute; reflexivity|].
  split; [vm_compute; reflexivity|].
  eapply (join_without_color_gets_smallest_unused s 3 _ _ 1).
  - reflexivity.
  - reflexivity.
  - unfold join_accepted. split_and!; vm_compute; reflexivity.
Defined.

Example join_without_color_gets_2 :
  Player.color
    (player_at (state_after (colors_1_3_events ++ [receive_event 3 [Byte.x0e]])) 3)
  = Some 2%Z.
Proof. vm_compute. reflexivity. Qed.

(** C10: a join request that [onjoingame] accepts and that fills the game.
    When the joining player is on protocol 0, the game is in Prepare
    afterwards and, after the membership snapshots, every member has been
    sent a prepare packet, in join order; no ready flag is asked for, and
    the joining player is not ready. When the joining player is on any
    other protocol, the game stays Open and only the membership snapshots
    are sent. *)
Theorem full_join_prepares_only_on_protocol_0 s player packet pk game :
  pc.body packet = pc.cmd_joingame pk →
  join_accepted s player pk game →
  (Game.playercnt (game_at s game) + 1 = Game.maxplayers (game_at s game))%Z →
  ∃ s', onjoingame (player, packet) s = Ok None s'
        ∧ Game.players (game_at s' game)
          = Game.players (game_at s game) ++ [player]
        ∧ Game.is_full (game_at s' game) = true
        ∧ Player.ready (player_at s' player) = false
        ∧ (Player.protocol (player_at s player) = 0%Z →
             Game.state (game_at s' game) = Game.State.Prepare
             ∧ outbox s' = outbox s
                 ++ gamestate_broadcast (joined s player pk game) game
                 ++ broadcast s' game sp.cmd_preparegame)
        ∧ (Player.protocol (player_at s player) ≠ 0%Z →
             Game.state (game_at s' game) = Game.State.Open
             ∧ outbox s' = outbox s
                 ++ gamestate_broadcast (joined s player pk game) game).
Proof.
  intros Hbody Hacc Hfill. eexists. split; [by apply onjoingame_accepted|].
  destruct Hacc as (_ & _ & Hopen & _ & _ & _).
  apply bool_decide_eq_true in Hopen.
  assert (Game.is_full (game_at (joined s player pk game) game) = true) as Hfull.
  { rewrite joined_game. unfold Game.is_full; simpl. by apply Z.eqb_eq. }
  cbv zeta. rewrite Hfull, joined_player, andb_true_r.
  change (Player.protocol (Player.join _ _ _ _ _ ?p)) with (Player.protocol p).
  case_bool_decide as Hproto; autorewrite with server;
    rewrite joined_game, joined_player.
  - split_and!; try done.
    + unfold Game.is_full; simpl. by apply Z.eqb_eq.
    + intros _. split; [done|].
      change (outbox (joined s player pk game)) with (outbox s).
      by rewrite <- app_assoc.
  - split_and!; try done.
    unfold Game.is_full; simpl. by apply Z.eqb_eq.
Qed.

(** "A" has created a game for two; "B", on protocol 0, joins it. *)
Lemma full_join_prepares_only_on_protocol_0_witness :
  let s := state_after (before_last_join_events 0) in
  known_player s 2 = Some 2
  ∧ Player.protocol (player_at s 2) = 0%Z
  ∧ ∃ s', onjoingame (2, joingame_packet "B" 1 "player-B" (Some 2%Z) None) s
          = Ok None s'
          ∧ Game.state (game_at s' 1) = Game.State.Prepare
          ∧ Player.ready (player_at s' 2) = false.
Proof.
  intros s. split; [vm_compute; reflexivity|].
  split; [vm_compute; reflexivity|].
  destruct (full_join_prepares_only_on_protocol_0 s 2
              (joingame_packet "B" 1 "player-B" (Some 2%Z) None) _ 1
              eq_refl)
    as (s' & Hrun & _ & _ & Hready & Hzero & _).
  - unfold join_accepted. split_and!; vm_compute; reflexivity.
  - vm_compute. reflexivity.
  - exists s'. split; [exact Hrun|].
    split; [apply Hzero; vm_compute; reflexivity|exact Hready].
Defined.

(** ** Leaving a game *)

Lemma for_modify {A} (l : list A) (f : A → Server → Server) s :
  for_ l (λ x, modify (f x)) s = Ok () (foldl (λ s' x, f x s') s l).
Proof.
  revert s. induction l as [|x l IH]; intros s; [done|].
  simpl. rewrite bind_modify. apply IH.
Qed.

Lemma released_frame s members :
  games (released s members) = games s
  ∧ game_objs (released s members) = game_objs s
  ∧ outbox (released s members) = outbox s
  ∧ next_ref (released s members) = next_ref s
  ∧ players (released s members) = players s.
Proof.
  revert s. unfold released.
  induction members as [|m l IH]; intros s; [done|]. simpl.
  destruct (IH (update_player m (Player.set_game None) s))
    as (-> & -> & -> & -> & ->). done.
Qed.

Lemma game_at_released s members game :
  game_at (released s members) game = game_at s game.
Proof. unfold game_at. by rewrite (proj1 (proj2 (released_frame _ _))). Qed.

Lemma released_player s members member :
  member ∈ members →
  Player.game (player_at (released s members) member) = None.
Proof.
  revert s. unfold released.
  induction members as [|m l IH] using rev_ind; intros s Hm.
  - by apply elem_of_nil in Hm.
  - rewrite foldl_app. simpl.
    destruct (decide (member = m)) as [->|Hne].
    + by rewrite player_at_update_player.
    + rewrite player_at_update_player_ne by done. apply IH.
      apply elem_of_app in Hm as [Hm|Hm]; [done|].
      apply list_elem_of_singleton in Hm. done.
Qed.

Lemma clear_eq game s :
  clear game s
  = Ok () (update_game game (Game.set_players [] 0)
             (released s (Game.players (game_at s game)))).
Proof.
  unfold clear. mstep.
  rewrite (bind_Ok _ _ _ _ _ (for_modify _ _ _)). reflexivity.
Qed.

Lemma deletegame_eq game s registry :
  list_remove_first game (games s) = Some registry →
  deletegame game s
  = Ok None (set_games (λ _, registry)
               (update_game game (Game.set_players [] 0)
                  (released s (Game.players (game_at s game))))).
Proof.
  intros Hreg. unfold deletegame.
  rewrite (bind_Ok _ _ _ _ _ (clear_eq _ _)). mstep.
  autorewrite with server. rewrite (proj1 (released_frame _ _)), Hreg.
  reflexivity.
Qed.

Lemma list_remove_first_Some x l :
  x ∈ l → ∃ l1 l2, l = l1 ++ x :: l2 ∧ (x ∉ l1)
                   ∧ list_remove_first x l = Some (l1 ++ l2).
Proof.
  induction l as [|y l IH]; intros Hx; [by apply elem_of_nil in Hx|].
  simpl. case_bool_decide as Hy.
  - subst y. exists [], l. split_and!; try done. apply not_elem_of_nil.
  - apply elem_of_cons in Hx as [->|Hx]; [done|].
    destruct (IH Hx) as (l1 & l2 & -> & Hnot & ->).
    exists (y :: l1), l2. split_and!; try done.
    apply not_elem_of_cons. split; [congruence|done].
Qed.

Lemma list_remove_first_None x l : x ∉ l → list_remove_first x l = None.
Proof.
  induction l as [|y l IH]; intros Hx; [done|].
  apply not_elem_of_cons in Hx as [Hne Hx]. simpl.
  rewrite bool_decide_false by congruence. by rewrite IH.
Qed.

Lemma list_remove_first_length x l l' :
  list_remove_first x l = Some l' → length l = S (length l').
Proof.
  revert l'. induction l as [|y l IH]; intros l'; [done|]. simpl.
  case_bool_decide; [by intros [= ->]|].
  destruct (list_remove_first x l) as [l0|]; [|done].
  intros [= <-]. simpl. f_equal. by apply IH.
Qed.

Lemma list_remove_first_subseteq x l l' y :
  list_remove_first x l = Some l' → y ∈ l' → y ∈ l.
Proof.
  revert l'. induction l as [|z l IH]; intros l'; [done|]. simpl.
  case_bool_decide; [intros [= ->]; by right|].
  destruct (list_remove_first x l) as [l0|]; [|done].
  intros [= <-] [->|Hy]%elem_of_cons; [left|right; by eapply IH].
Qed.

Lemma list_remove_first_NoDup x l l' :
  NoDup l → list_remove_first x l = Some l' → NoDup l' ∧ x ∉ l'.
Proof.
  intros Hnd Hrem.
  assert (x ∈ l) as Hx.
  { destruct (decide (x ∈ l)) as [|Hn]; [done|].
    by rewrite (list_remove_first_None _ _ Hn) in Hrem. }
  destruct (list_remove_first_Some x l Hx) as (l1 & l2 & -> & Hnot & Heq).
  rewrite Heq in Hrem. injection Hrem as <-.
  apply NoDup_app in Hnd as (Hnd1 & Hdisj & Hnd2).
  apply NoDup_cons in Hnd2 as [Hx2 Hnd2]. split.
  - apply NoDup_app. split_and!; try done.
    intros y Hy Hy2. apply (Hdisj y Hy). by right.
  - rewrite elem_of_app. intros [?|?]; done.
Qed.

(** What [remove_player] leaves for a member. *)
Lemma remove_player_eq game player s rest :
  list_remove_first player (Game.players (game_at s game)) = Some rest →
  remove_player game player s
  = Ok () (update_player player (Player.set_game None)
             (update_game game
                (Game.set_players rest (Game.playercnt (game_at s game) - 1))
                s)).
Proof. intros Hrest. unfold remove_player. mstep. by rewrite Hrest. Qed.

(** [terminategame] for an open game whose creator is on protocol 1 or
    later: every member gets the termination notice, and the game goes. *)
Lemma terminategame_graceful game player s registry :
  let g := game_at s game in
  (1 ≤ Player.protocol (player_at s (Game.creator g)))%Z →
  Game.is_open g = true →
  list_remove_first game (games s) = Some registry →
  terminategame (game, player) s
  = deletegame game
      (set_outbox (λ o, o ++ (termination_notice s <$> Game.players g)) s).
Proof.
  intros g Hproto Hopen Hreg. unfold terminategame. repeat mstep.
  fold g. apply Z.leb_le in Hproto. rewrite Hproto, Hopen.
  cbv beta iota delta [andb].
  rewrite (bind_Ok _ _ _ _ _
             (for_send _ _ termination_notice _ (λ _ _, eq_refl)
                (λ _ _ _, eq_refl))).
  unfold call_callbacks, bind.
  rewrite (call_callbacks_single _ _ _ _ _ callbacks_game_deletegame).
  rewrite !(deletegame_eq _ _ registry) by exact Hreg.
  reflexivity.
Qed.

Lemma termination_notice_frame s s' member :
  Player.peer (player_at s' member) = Player.peer (player_at s member) →
  Player.gettext (player_at s' member) = Player.gettext (player_at s member) →
  termination_notice s' member = termination_notice s member.
Proof. unfold termination_notice, S_. by intros -> ->. Qed.

Lemma player_at_update_player_cases player f s r :
  player_at (update_player player f s) r
  = if decide (player = r) then f (player_at s r) else player_at s r.
Proof.
  case_decide as H; [subst; apply player_at_update_player|].
  by apply player_at_update_player_ne.
Qed.

(** The state in which [leavegame] has taken a member off an open game. *)
Lemma leavegame_open_removed s player game rest :
  Player.game (player_at s player) = Some game →
  Game.is_open (game_at s game) = true →
  list_remove_first player (Game.players (game_at s game)) = Some rest →
  leavegame player s =
  let s1 := update_player player (Player.set_game None)
              (update_game game
                 (Game.set_players rest (Game.playercnt (game_at s game) - 1))
                 s) in
  if Game.is_empty (game_at s1 game) then
    (call_callbacks callbacks_game "deletegame" game >> return_None) s1
  else
    let s2 := set_outbox (λ o, o ++ gamestate_broadcast s1 game) s1 in
    if (1 <=? Player.protocol (player_at s player))%Z
       && bool_decide (player = Game.creator (game_at s game))
    then
      (call_callbacks callbacks_terminategame "terminategame"
                      (game, Some player) >> return_None) s2
    else Ok None s2.
Proof.
  intros Hgame Hopen Hrest. unfold leavegame. mstep. rewrite Hgame. mstep.
  rewrite Hopen. cbv beta iota delta [negb].
  rewrite (bind_Ok _ _ _ _ _ (remove_player_eq _ _ _ _ Hrest)). mstep.
  cbv zeta. destruct (Game.is_empty _); [reflexivity|].
  rewrite (bind_Ok _ _ _ _ _ (send_gamestate_eq _ _)). repeat mstep.
  autorewrite with server.
  change (Player.protocol (Player.set_game None ?p)) with (Player.protocol p).
  change (Game.creator (Game.set_players ?a ?b ?g)) with (Game.creator g).
  by destruct (_ && _).
Qed.

Lemma released_peer s members r :
  Player.peer (player_at (released s members) r) = Player.peer (player_at s r).
Proof.
  revert s. unfold released. induction members as [|m l IH]; intros s; [done|].
  simpl. rewrite IH, player_at_update_player_cases. by case_decide.
Qed.

Lemma released_peer_data s members :
  peer_data (released s members) = peer_data s.
Proof.
  revert s. unfold released. induction members as [|m l IH]; intros s; [done|].
  simpl. by rewrite IH.
Qed.

(** [leavegame] for the creator of an open game, on protocol 1 or later,
    who leaves others behind: the game is deleted from the registry, the
    remaining members are sent the membership snapshot and then the
    termination notice, in join order, and belong to no game any more. The
    session registry is not touched and every player keeps their peer. *)
Lemma leavegame_by_creator s player game rest :
  Inv s →
  game ∈ games s →
  Player.game (player_at s player) = Some game →
  Game.is_open (game_at s game) = true →
  Game.creator (game_at s game) = player →
  (1 ≤ Player.protocol (player_at s player))%Z →
  list_remove_first player (Game.players (game_at s game)) = Some rest →
  rest ≠ [] →
  ∃ s', leavegame player s = Ok None s'
        ∧ (game ∉ games s')
        ∧ outbox s' = outbox s ++ creator_left s player game rest
        ∧ (∀ member, member ∈ rest →
             Player.game (player_at s' member) = None)
        ∧ players s' = players s
        ∧ peer_data s' = peer_data s
        ∧ ∀ r, Player.peer (player_at s' r) = Player.peer (player_at s r).
Proof.
  intros [Hnodup Hinv] Hreg Hgame Hopen Hcreator Hproto Hrest Hne.
  destruct (Hinv game Hreg) as (_ & [Hcnt _] & _).
  destruct (list_remove_first_Some game (games s) Hreg)
    as (l1 & l2 & Hsplit & _ & Hregistry).
  destruct (list_remove_first_NoDup _ _ _ Hnodup Hregistry) as [_ Hgone].
  rewrite (leavegame_open_removed s player game rest Hgame Hopen Hrest).
  cbv zeta. set (s1 := update_player player _ _).
  assert (game_at s1 game
          = Game.set_players rest (Game.playercnt (game_at s game) - 1)
              (game_at s game)) as Hg1.
  { unfold s1. autorewrite with server. reflexivity. }
  assert (Game.is_empty (game_at s1 game) = false) as ->.
  { rewrite Hg1. unfold Game.is_empty; simpl. apply Z.eqb_neq.
    rewrite Hcnt, (list_remove_first_length _ _ _ Hrest).
    destruct rest; [done|]. simpl. lia. }
  apply Z.leb_le in Hproto. rewrite Hproto, Hcreator.
  rewrite bool_decide_true by done. cbv beta iota delta [andb].
  set (s2 := set_outbox _ s1).
  assert (∀ member, termination_notice s2 member = termination_notice s member)
    as Hnotice.
  { intros member. apply termination_notice_frame; unfold s2, s1;
      autorewrite with server; rewrite player_at_update_player_cases;
      by case_decide. }
  unfold call_callbacks, bind.
  rewrite (call_callbacks_single _ _ _ _ _ callbacks_terminategame_terminategame).
  rewrite (terminategame_graceful game (Some player) s2 (l1 ++ l2)).
  2:{ unfold s2. autorewrite with server. rewrite Hg1. simpl. rewrite Hcreator.
      unfold s1. rewrite player_at_update_player. simpl. by apply Z.leb_le. }
  2:{ unfold s2. autorewrite with server. by rewrite Hg1. }
  2:{ exact Hregistry. }
  rewrite (deletegame_eq _ _ (l1 ++ l2)) by exact Hregistry.
  eexists. split; [reflexivity|].
  assert (Game.players (game_at s2 game) = rest) as Hplayers.
  { unfold s2. autorewrite with server. by rewrite Hg1. }
  autorewrite with server. rewrite Hplayers.
  assert (termination_notice s2 <$> rest = termination_notice s <$> rest)
    as Hnotices by (apply list_fmap_ext; intros; apply Hnotice).
  rewrite Hnotices.
  assert (∀ X Y, outbox (set_games (λ _, l1 ++ l2)
                   (update_game game (Game.set_players [] 0)
                      (released (set_outbox (λ o, o ++ Y) s2) X)))
                 = (outbox s ++ gamestate_broadcast s1 game) ++ Y) as Hout.
  { intros X Y. simpl. by rewrite (proj1 (proj2 (proj2 (released_frame _ _)))). }
  assert (gamestate_broadcast s1 game
          = (λ member, Send (Player.peer (player_at s member))
                            (sp.data_gamestate (snapshot s1 game))) <$> rest)
    as Hgs.
  { unfold gamestate_broadcast, broadcast. rewrite Hg1. simpl.
    apply list_fmap_ext. intros _ member _. unfold s1.
    rewrite player_at_update_player_cases. by case_decide. }
  split_and!.
  - exact Hgone.
  - rewrite Hout, <- app_assoc, Hgs. reflexivity.
  - intros member Hmember.
    change (player_at (set_games ?f ?x) ?r) with (player_at x r).
    autorewrite with server. by apply released_player.
  - simpl. by rewrite (proj2 (proj2 (proj2 (proj2 (released_frame _ _))))).
  - simpl. by rewrite released_peer_data.
  - intros r.
    change (player_at (set_games ?f ?x) ?r) with (player_at x r).
    autorewrite with server. rewrite released_peer.
    unfold s2, s1. autorewrite with server.
    rewrite player_at_update_player_cases. by case_decide.
Qed.

(** Leaving on request runs [leavegame] and then acknowledges. *)
Lemma onleavegame_runs_leavegame s player packet game :
  Player.game (player_at s player) = Some game →
  onleavegame (player, packet) s =
  match leavegame player s with
  | Ok _ s' =>
      Ok None (set_outbox
                 (λ o, o ++ [Send (Player.peer (player_at s' player)) sp.cmd_ok])
                 s')
  | Raise e s' => Raise e s'
  end.
Proof.
  intros Hgame. unfold onleavegame. mstep. rewrite Hgame.
  unfold call_callbacks, bind.
  rewrite (call_callbacks_single _ _ _ _ _ callbacks_leavegame_leavegame).
  by destruct (leavegame player s).
Qed.

(** A disconnect of a player who is in a game runs [leavegame] before the
    player is taken off the session registry. *)
Lemma ondisconnect_runs_leavegame s event player session_id game :
  peer_data s !! Event.peer event = Some session_id →
  players s !! session_id = Some player →
  Player.game (player_at s player) = Some game →
  ondisconnect event s =
  match leavegame player s with
  | Ok _ s' => Ok None (set_players (delete session_id) s')
  | Raise e s' => Raise e s'
  end.
Proof.
  intros Hdata Hplayer Hgame. unfold ondisconnect. mstep. unfold id, known_player.
  rewrite Hdata. simpl. rewrite Hplayer, Hgame.
  rewrite bool_decide_true by done.
  unfold call_callbacks, bind.
  rewrite (call_callbacks_single _ _ _ _ _ callbacks_leavegame_leavegame).
  by destruct (leavegame player s).
Qed.

(** The invariant on the example lobby: one game, with "A" and "B". *)
Lemma lobby_Inv : Inv (state_after lobby_events).
Proof.
  assert (games (state_after lobby_events) = [1]) as Hgames
    by (vm_compute; reflexivity).
  split; rewrite Hgames.
  - apply NoDup_singleton.
  - intros game ->%list_elem_of_singleton. split_and!.
    + vm_compute. lia.
    + split; vm_compute; [reflexivity|discriminate].
    + intros _. vm_compute. discriminate.
Qed.

(** C4 as stated fails for a creator on protocol 0: "A", on protocol 0, has
    created a game for three, "B" has joined it, and "A" leaves. The game
    stays in the registry, with "B" as its only member, and all "B" gets is
    the membership snapshot. *)
Lemma creator_on_protocol_0_leaves_silently :
  let s := state_after (lobby_of_three_events 0) in
  let s' := state_of (leavegame 0 s) in
  known_player s 1 = Some 0
  ∧ Player.protocol (player_at s 0) = 0%Z
  ∧ PROTOCOLS = [0; 1]%Z
  ∧ Player.game (player_at s 0) = Some 1
  ∧ games s = [1]
  ∧ Game.state (game_at s 1) = Game.State.Open
  ∧ Game.creator (game_at s 1) = 0
  ∧ list_remove_first 0 (Game.players (game_at s 1)) = Some [2]
  ∧ returns (leavegame 0 s) = true
  ∧ games s' = [1]
  ∧ Game.players (game_at s' 1) = [2]
  ∧ drop (length (outbox s)) (outbox s') = gamestate_broadcast s' 1
  ∧ ¬ torn_down s s' 1 [2].
Proof.
  intros s s'. split_and!; try (vm_compute; reflexivity).
  intros [Hgone _]. apply Hgone.
  apply (bool_decide_unpack (1 ∈ _)). vm_compute. exact I.
Qed.

(** ** Ready and prepared *)

Lemma length_filter_all {A} (P : A → Prop) `{∀ x, Decision (P x)} (l : list A) :
  length (filter P l) = length l ↔ Forall P l.
Proof.
  split.
  - intros Hlen. apply Forall_forall. intros x Hx.
    destruct (decide (P x)) as [|Hn]; [done|].
    pose proof (length_filter_lt P l x Hx Hn). lia.
  - intros Hall. induction Hall as [|x l Hx Hall IH]; [done|].
    rewrite filter_cons_True by done. simpl. by rewrite IH.
Qed.

(** With the counter at the number of members, [is_ready] says that every
    member is ready. *)
Lemma is_ready_all_ready s game :
  members_bounded (game_at s game) →
  is_ready s game = true ↔ all_ready s game.
Proof.
  intros [Hcnt _]. unfold is_ready, all_ready.
  rewrite Hcnt, Z.eqb_eq, Nat2Z.inj_iff. apply length_filter_all.
Qed.

Lemma count_prepared_all_prepared s game :
  members_bounded (game_at s game) →
  count_prepared s game = Game.playercnt (game_at s game)
  ↔ all_prepared s game.
Proof.
  intros [Hcnt _]. unfold count_prepared, all_prepared.
  rewrite Hcnt, Nat2Z.inj_iff. apply length_filter_all.
Qed.

Lemma is_ready_set_outbox f s game :
  is_ready (set_outbox f s) game = is_ready s game.
Proof. reflexivity. Qed.

(** What [ontoggleready] does for a member of an open game. *)
Lemma ontoggleready_open s player packet game :
  Player.game (player_at s player) = Some game →
  Game.is_open (game_at s game) = true →
  ontoggleready (player, packet) s =
  Ok None
     (let s1 := update_player player Player.toggle_ready s in
      let s2 := set_outbox (λ o, o ++ gamestate_broadcast s1 game) s1 in
      if is_ready s1 game then
        let s3 := update_game game (Game.set_state Game.State.Prepare) s2 in
        set_outbox (λ o, o ++ broadcast s3 game sp.cmd_preparegame) s3
      else s2).
Proof.
  intros Hgame Hopen. unfold ontoggleready. mstep. rewrite Hgame. mstep.
  rewrite Hopen. cbv beta iota delta [negb]. mstep.
  rewrite (bind_Ok _ _ _ _ _ (send_gamestate_eq _ _)). mstep.
  rewrite is_ready_set_outbox. cbv zeta.
  destruct (is_ready _ game); [|reflexivity].
  unfold call_callbacks, bind.
  rewrite (call_callbacks_single _ _ _ _ _ callbacks_game_preparegame).
  by rewrite preparegame_eq.
Qed.

(** What [onpreparedgame] does for a member of a game, whatever the state
    of the game. *)
Lemma onpreparedgame_member s player packet game :
  Player.game (player_at s player) = Some game →
  onpreparedgame (player, packet) s =
  Ok None
     (let s1 := update_player player (Player.set_prepared true) s in
      if bool_decide (count_prepared s1 game ≠ Game.playercnt (game_at s1 game))
      then s1
      else
        let s2 := update_game game (Game.set_state Game.State.Running) s1 in
        set_outbox (λ o, o ++ broadcast s2 game sp.cmd_startgame) s2).
Proof.
  intros Hgame. unfold onpreparedgame. mstep. rewrite Hgame. repeat mstep.
  cbv zeta. case_bool_decide; [reflexivity|].
  unfold call_callbacks, bind.
  rewrite (call_callbacks_single _ _ _ _ _ callbacks_game_startgame).
  by rewrite startgame_eq.
Qed.

(** The two handlers of the handshake, for a player whose game is [game],
    a game whose counter is the number of its members:
    - a ready-toggle in an open game puts the game into Prepare, with a
      prepare packet to every member after the membership snapshots,
      exactly when every member is ready after the toggle; otherwise the
      game stays Open and only the snapshots are sent;
    - a prepared-acknowledgement in a game in Prepare puts the game into
      Running, with a start packet to every member, exactly when every
      member has acknowledged after it; otherwise the game stays in
      Prepare and nothing is sent. *)
Lemma handshake_by_handlers s player packet game :
  Player.game (player_at s player) = Some game →
  members_bounded (game_at s game) →
  (Game.state (game_at s game) = Game.State.Open →
   let s1 := update_player player Player.toggle_ready s in
   ∃ s', ontoggleready (player, packet) s = Ok None s'
         ∧ (all_ready s1 game →
              Game.state (game_at s' game) = Game.State.Prepare
              ∧ outbox s' = outbox s ++ gamestate_broadcast s1 game
                              ++ broadcast s' game sp.cmd_preparegame)
         ∧ (¬ all_ready s1 game →
              Game.state (game_at s' game) = Game.State.Open
              ∧ outbox s' = outbox s ++ gamestate_broadcast s1 game))
  ∧ (Game.state (game_at s game) = Game.State.Prepare →
     let s1 := update_player player (Player.set_prepared true) s in
     ∃ s', onpreparedgame (player, packet) s = Ok None s'
           ∧ (all_prepared s1 game →
                Game.state (game_at s' game) = Game.State.Running
                ∧ outbox s' = outbox s ++ broadcast s' game sp.cmd_startgame)
           ∧ (¬ all_prepared s1 game →
                Game.state (game_at s' game) = Game.State.Prepare
                ∧ outbox s' = outbox s)).
Proof.
  intros Hgame Hbounded. split.
  - intros Hopen s1.
    assert (members_bounded (game_at s1 game)) as Hb1 by done.
    pose proof (is_ready_all_ready s1 game Hb1) as Hready.
    eexists. split.
    { apply ontoggleready_open; [done|]. by apply bool_decide_eq_true. }
    cbv zeta. fold s1. destruct (is_ready s1 game).
    + split; [|intros Hn; destruct Hn; by apply Hready].
      intros _. autorewrite with server. split; [done|].
      by rewrite <- app_assoc.
    + split; [intros Hall; apply Hready in Hall; done|].
      intros _. autorewrite with server. done.
  - intros Hprep s1.
    assert (members_bounded (game_at s1 game)) as Hb1 by done.
    pose proof (count_prepared_all_prepared s1 game Hb1) as Hcount.
    eexists. split; [by apply onpreparedgame_member|].
    cbv zeta. fold s1. case_bool_decide as Hne.
    + split; [intros Hall; apply Hcount in Hall; done|].
      intros _. done.
    + split; [|intros Hn; destruct Hn; apply Hcount;
                 by destruct (decide (count_prepared s1 game
                                      = Game.playercnt (game_at s1 game)))].
      intros _. autorewrite with server. done.
Qed.

(** C5 as stated fails for a join on protocol 0: "A" has created a game for
    two, and "B", on protocol 0, joins it. The packet is a join request,
    nobody has toggled ready and nobody is ready, and the game goes from
    Open to Prepare, with a prepare packet to both. *)
Lemma join_on_protocol_0_prepares_unready_game :
  let s := state_after (before_last_join_events 0) in
  let event := receive_event 2 [Byte.x02] in
  let s' := state_of (run_once example_codec event s) in
  example_codec [Byte.x02] 0
    = packets.Parsed (joingame_packet "B" 1 "player-B" (Some 2%Z) None)
  ∧ returns (run_once example_codec event s) = true
  ∧ Game.state (game_at s 1) = Game.State.Open
  ∧ Game.state (game_at s' 1) = Game.State.Prepare
  ∧ Game.players (game_at s' 1) = [0; 2]
  ∧ Player.ready (player_at s' 0) = false
  ∧ Player.ready (player_at s' 2) = false
  ∧ drop (length (outbox s)) (outbox s')
    = gamestate_broadcast
        (update_game 1 (Game.set_state Game.State.Open) s') 1
      ++ broadcast s' 1 sp.cmd_preparegame
  ∧ ¬ prepare_only_if_all_ready s s' 1.
Proof.
  intros s event s'. split_and!; try (vm_compute; reflexivity).
  intros Hclaim.
  assert (all_ready s' 1) as Hall
    by (apply Hclaim; vm_compute; reflexivity).
  apply Forall_cons in Hall as [Hready _]. vm_compute in Hready.
  discriminate Hready.
Qed.

(** The other way C5 fails: [onpreparedgame] does not look at the state of
    the game. "A" has created a game and, alone in the open game, sends a
    prepared-acknowledgement: the game goes from Open to Running. *)
Lemma prepared_in_open_game_starts_it :
  let s := state_after (connected_events ++ [receive_event 1 [Byte.x01]]) in
  let event := receive_event 1 [Byte.x05] in
  let s' := state_of (run_once example_codec event s) in
  returns (run_once example_codec event s) = true
  ∧ Game.state (game_at s 1) = Game.State.Open
  ∧ Game.state (game_at s' 1) = Game.State.Running
  ∧ drop (length (outbox s)) (outbox s') = [Send 1 sp.cmd_startgame]
  ∧ ¬ running_only_from_prepare s s' 1.
Proof.
  intros s event s'. split_and!; try (vm_compute; reflexivity).
  intros Hclaim.
  assert (Game.state (game_at s 1) = Game.State.Prepare) as Hprep.
  { apply Hclaim; vm_compute; [discriminate|reflexivity]. }
  vm_compute in Hprep. discriminate Hprep.
Qed.

(** A handler that returns [False] first: the two after it run all the
    same, in order, and the aggregate is [False]; a handler registered with
    [prepend] runs first, one registered without runs last. *)
Lemma call_callbacks_runs_every_handler_witness :
  Router.call_callbacks example_callbacks "event" () []
    = Ok (Some false) [1; 2; 3]
  ∧ (∃ callbacks',
       Router.register_callback example_callbacks "event" (noting 0 None) true
         = inr callbacks'
       ∧ Router.call_callbacks callbacks' "event" () []
         = Ok (Some false) [0; 1; 2; 3])
  ∧ (∃ callbacks',
       Router.register_callback example_callbacks "event" (noting 4 None) false
         = inr callbacks'
       ∧ Router.call_callbacks callbacks' "event" () []
         = Ok (Some false) [1; 2; 3; 4]).
Proof.
  assert (example_callbacks !! "event"
          = Some [noting 1 (Some false); noting 2 None; noting 3 (Some true)])
    as Hlookup by reflexivity.
  split_and!.
  - destruct (call_callbacks_runs_every_handler example_callbacks "event" _
                (noting 0 None) () [] Hlookup) as (-> & _).
    reflexivity.
  - destruct (call_callbacks_runs_every_handler example_callbacks "event" _
                (noting 0 None) () [] Hlookup)
      as (_ & _ & (callbacks' & Hreg & Hhead & _) & _).
    exists callbacks'. split; [exact Hreg|].
    destruct (call_callbacks_runs_every_handler callbacks' "event" _
                (noting 0 None) () [] Hhead) as (-> & _).
    reflexivity.
  - destruct (call_callbacks_runs_every_handler example_callbacks "event" _
                (noting 4 None) () [] Hlookup)
      as (_ & _ & _ & (callbacks' & Hreg & Htail & _)).
    exists callbacks'. split; [exact Hreg|].
    destruct (call_callbacks_runs_every_handler callbacks' "event" _
                (noting 4 None) () [] Htail) as (-> & _).
    reflexivity.
Defined.

(** ** The invariant of the game registry *)

Lemma same_registry_refl s : same_registry s s.
Proof. by split_and!. Qed.

Lemma same_registry_trans s1 s2 s3 :
  same_registry s1 s2 → same_registry s2 s3 → same_registry s1 s3.
Proof.
  intros (H1 & H2 & H3) (H4 & H5 & H6). split_and!; [congruence..|lia].
Qed.

Lemma registry_inv_same_registry emptied s s' :
  same_registry s s' → registry_inv emptied s → registry_inv emptied s'.
Proof.
  intros (Hgames & Hobjs & Hnext) [Hnodup Hinv]. unfold registry_inv, game_at.
  rewrite Hgames, Hobjs. split; [done|].
  intros game Hgame. destruct (Hinv game Hgame) as (? & ? & ?).
  split_and!; [lia|done..].
Qed.

Lemma frame_ret {A} (a : A) : frame (ret a).
Proof. intros s. apply same_registry_refl. Qed.

Lemma frame_return_None : frame return_None.
Proof. apply frame_ret. Qed.

Lemma frame_raise {A} e : frame (raise (A:=A) e).
Proof. intros s. apply same_registry_refl. Qed.

Lemma frame_gets {A} (f : Server → A) : frame (gets f).
Proof. intros s. apply same_registry_refl. Qed.

Lemma frame_modify f : (∀ s, same_registry s (f s)) → frame (modify f).
Proof. intros H s. apply H. Qed.

Lemma frame_bind {A B} (m : M A) (k : A → M B) :
  frame m → (∀ a, frame (k a)) → frame (bind m k).
Proof.
  intros Hm Hk s. unfold bind. specialize (Hm s).
  destruct (m s) as [a s'|e s']; [|done].
  specialize (Hk a s'). destruct (k a s'); by eapply same_registry_trans.
Qed.

Lemma frame_for {A} (l : list A) (body : A → M unit) :
  (∀ x, frame (body x)) → frame (for_ l body).
Proof.
  intros Hbody. induction l as [|x l IH]; simpl.
  - apply frame_ret.
  - apply frame_bind; [apply Hbody|]. intros _. apply IH.
Qed.

Lemma frame_update_player player f : frame (modify (update_player player f)).
Proof. apply frame_modify. intros s. by split_and!. Qed.

Lemma frame_set_outbox f : frame (modify (set_outbox f)).
Proof. apply frame_modify. intros s. by split_and!. Qed.

Lemma frame_set_players f : frame (modify (set_players f)).
Proof. apply frame_modify. intros s. by split_and!. Qed.

Lemma frame_set_peer_data f : frame (modify (set_peer_data f)).
Proof. apply frame_modify. intros s. by split_and!. Qed.

Lemma frame_set_peer_connected f : frame (modify (set_peer_connected f)).
Proof. apply frame_modify. intros s. by split_and!. Qed.

Lemma frame_new_Player peer sid protocol :
  frame (new_Player peer sid protocol).
Proof. intros s. unfold new_Player; simpl. split_and!; simpl; [done..|lia]. Qed.

(** Proves [frame m] for code made of the steps above, by its syntax. *)
Ltac solve_frame :=
  repeat first
    [ apply frame_return_None | apply frame_ret | apply frame_raise
    | apply frame_gets | apply frame_update_player | apply frame_set_outbox
    | apply frame_set_players | apply frame_set_peer_data
    | apply frame_set_peer_connected | apply frame_new_Player
    | apply frame_for; intros ?
    | apply frame_bind; [|intros ?]
    | match goal with
      | |- frame (if ?b then _ else _) => destruct b
      | |- frame (match ?x with _ => _ end) => destruct x
      | |- frame (let '(_, _) := ?x in _) => destruct x
      end
    | progress unfold send, sendraw, disconnect, error, _error, fatalerror,
        _fatalerror, send_gamestate, wrong_class ].

Lemma frame_send_gamestate game : frame (send_gamestate game).
Proof. solve_frame. Qed.

Lemma frame_error player message _type : frame (error player message _type).
Proof. solve_frame. Qed.

Lemma frame_fatalerror player message later :
  frame (fatalerror player message later).
Proof. solve_frame. Qed.

Lemma frame_gamedata args : frame (gamedata args).
Proof. unfold gamedata. solve_frame. Qed.

Lemma frame_onerror args : frame (onerror args).
Proof. unfold onerror. solve_frame. Qed.

Lemma frame_onfatalerror args : frame (onfatalerror args).
Proof. unfold onfatalerror. solve_frame. Qed.

Lemma frame_onsessionprops args : frame (onsessionprops args).
Proof. unfold onsessionprops. solve_frame. Qed.

Lemma frame_onlistgames args : frame (onlistgames args).
Proof. unfold onlistgames. solve_frame. Qed.

Lemma frame_onchat args : frame (onchat args).
Proof. unfold onchat. solve_frame. Qed.

Lemma frame_onchangename args : frame (onchangename args).
Proof. unfold onchangename. solve_frame. Qed.

Lemma frame_onchangecolor args : frame (onchangecolor args).
Proof. unfold onchangecolor. solve_frame. Qed.

Lemma frame_onconnect event : frame (onconnect event).
Proof. unfold onconnect. solve_frame. Qed.

Lemma frame_wp {A} (m : M A) (P : Server → Prop) s :
  frame m → (∀ s', same_registry s s' → P s') → wp m (λ _, P) s.
Proof.
  intros Hm HP. unfold wp. specialize (Hm s). destruct (m s); [|done].
  by apply HP.
Qed.

Lemma frame_registry_inv {A} (m : M A) emptied s :
  frame m → registry_inv emptied s → wp m (λ _, registry_inv emptied) s.
Proof.
  intros Hm Hinv. apply frame_wp; [done|]. intros s' Hsame.
  by eapply registry_inv_same_registry.
Qed.

Lemma frame_preserves {A} (m : M A) : frame m → preserves m.
Proof. intros Hm s. by apply frame_registry_inv. Qed.

Lemma preserves_bind {A B} (m : M A) (k : A → M B) :
  preserves m → (∀ a, preserves (k a)) → preserves (bind m k).
Proof.
  intros Hm Hk s Hinv. apply wp_bind. eapply wp_mono; [|by apply Hm].
  intros a s' Hinv'. by apply Hk.
Qed.

Lemma preserves_for {A} (l : list A) (body : A → M unit) :
  (∀ x, preserves (body x)) → preserves (for_ l body).
Proof. intros Hbody s Hinv. apply wp_for; [|done]. intros x s' _. apply Hbody. Qed.

Lemma preserves_modify f : (∀ s, Inv s → Inv (f s)) → preserves (modify f).
Proof. intros Hf s Hinv. by apply Hf. Qed.

Lemma wp_call_callbacks_single {A} (callbacks : gmap string (list (handler A)))
    type cb args (Q : Server → Prop) s :
  callbacks !! type = Some [cb] →
  wp (cb args) (λ _, Q) s →
  wp (call_callbacks callbacks type args) (λ _, Q) s.
Proof.
  intros Hcb. unfold wp, call_callbacks.
  rewrite (call_callbacks_single _ _ _ _ _ Hcb). by destruct (cb args s).
Qed.

Lemma preserves_call_callbacks {A} (callbacks : gmap string (list (handler A)))
    type cb args :
  callbacks !! type = Some [cb] →
  preserves (cb args) →
  preserves (call_callbacks callbacks type args).
Proof. intros Hcb Hp s Hinv. eapply wp_call_callbacks_single; eauto. Qed.

Lemma registry_inv_weaken emptied s : Inv s → registry_inv emptied s.
Proof.
  intros [Hnodup Hinv]. split; [done|]. intros game Hgame.
  destruct (Hinv game Hgame) as (? & ? & Hne). split_and!; [done..|].
  intros _. by apply Hne.
Qed.

Lemma registry_inv_nonempty game s :
  registry_inv (Some game) s →
  (game ∈ games s → Game.players (game_at s game) ≠ []) →
  Inv s.
Proof.
  intros [Hnodup Hinv] Hgame. split; [done|]. intros game' Hgame'.
  destruct (Hinv game' Hgame') as (? & ? & Hne). split_and!; [done..|].
  intros _. destruct (decide (game' = game)) as [->|Hneq]; [by apply Hgame|].
  apply Hne. congruence.
Qed.

(** An update of a game that keeps its members, its counter and its
    maximum keeps the invariant. *)
Lemma registry_inv_update_game emptied game f s :
  (∀ g, Game.players (f g) = Game.players g
        ∧ Game.playercnt (f g) = Game.playercnt g
        ∧ Game.maxplayers (f g) = Game.maxplayers g) →
  registry_inv emptied s → registry_inv emptied (update_game game f s).
Proof.
  intros Hf [Hnodup Hinv]. split; [done|]. intros game' Hgame'.
  destruct (Hinv game' Hgame') as (Hlt & [Hcnt Hmax] & Hne).
  destruct (decide (game = game')) as [->|Hneq].
  - rewrite game_at_update_game. destruct (Hf (game_at s game')) as (Hp & Hc & Hm).
    unfold members_bounded. rewrite Hp, Hc, Hm. done.
  - rewrite game_at_update_game_ne by done. done.
Qed.

Lemma preserves_set_state game st :
  preserves (modify (update_game game (Game.set_state st))).
Proof.
  apply preserves_modify. intros s. by apply registry_inv_update_game.
Qed.

Lemma preserves_preparegame game : preserves (preparegame game).
Proof.
  unfold preparegame. apply preserves_bind; [apply preserves_set_state|].
  intros _. apply frame_preserves. solve_frame.
Qed.

Lemma preserves_startgame game : preserves (startgame game).
Proof.
  unfold startgame. apply preserves_bind; [apply preserves_set_state|].
  intros _. apply frame_preserves. solve_frame.
Qed.

(** Deleting a game restores the invariant when the game is the one that
    may be empty. *)
Lemma deletegame_restores game s :
  registry_inv (Some game) s → wp (deletegame game) (λ _, Inv) s.
Proof.
  intros [Hnodup Hinv]. unfold wp.
  destruct (list_remove_first game (games s)) as [registry|] eqn:Hreg.
  - rewrite (deletegame_eq _ _ _ Hreg).
    destruct (list_remove_first_NoDup _ _ _ Hnodup Hreg) as [Hnodup' Hgone].
    split; [done|]. intros game' Hgame'.
    assert (game' ≠ game) as Hneq by (intros ->; done).
    assert (game' ∈ games s) as Hold
      by (eapply list_remove_first_subseteq; eauto).
    destruct (Hinv game' Hold) as (Hlt & Hb & Hne).
    change (game_at (set_games ?f ?x) ?r) with (game_at x r).
    rewrite game_at_update_game_ne, game_at_released by done.
    split_and!.
    + simpl. by rewrite (proj1 (proj2 (proj2 (proj2 (released_frame _ _))))).
    + done.
    + intros _. apply Hne. congruence.
  - unfold deletegame. rewrite (bind_Ok _ _ _ _ _ (clear_eq _ _)). mstep.
    autorewrite with server. rewrite (proj1 (released_frame _ _)), Hreg.
    done.
Qed.

Lemma preserves_deletegame game : preserves (deletegame game).
Proof. intros s Hinv. by apply deletegame_restores, registry_inv_weaken. Qed.

Lemma terminategame_restores game player s :
  registry_inv (Some game) s →
  wp (terminategame (game, player)) (λ _, Inv) s.
Proof.
  intros Hinv. unfold terminategame. apply wp_bind, wp_gets, wp_bind, wp_gets.
  apply wp_bind.
  eapply wp_mono; [|apply (frame_registry_inv _ (Some game)); [|done]].
  - intros ? s' Hinv'. apply wp_bind.
    eapply wp_mono;
      [|eapply wp_call_callbacks_single;
          [exact callbacks_game_deletegame|by apply deletegame_restores]].
    intros ? s'' Hinv''. exact Hinv''.
  - solve_frame.
Qed.

Lemma preserves_terminategame args : preserves (terminategame args).
Proof.
  destruct args as [game player]. intros s Hinv.
  by apply terminategame_restores, registry_inv_weaken.
Qed.

(** Taking a player off a game keeps the invariant but for the game,
    which may have lost its last member. *)
Lemma remove_player_inv game player s :
  Inv s → wp (remove_player game player) (λ _, registry_inv (Some game)) s.
Proof.
  intros Hinv. unfold remove_player. apply wp_bind, wp_gets.
  destruct (list_remove_first player _) as [rest|] eqn:Hrest.
  - apply wp_bind, wp_modify, wp_modify.
    eapply (registry_inv_same_registry _ (update_game _ _ s));
      [by split_and!|].
    destruct Hinv as [Hnodup Hinv]. split; [done|]. intros game' Hgame'.
    destruct (Hinv game' Hgame') as (Hlt & [Hcnt Hmax] & Hne).
    destruct (decide (game = game')) as [->|Hneq].
    + rewrite game_at_update_game. split_and!; [done| |done].
      pose proof (list_remove_first_length _ _ _ Hrest) as Hlen.
      split; simpl; lia.
    + rewrite game_at_update_game_ne by done.
      split_and!; [done..|]. intros _. by apply Hne.
  - apply wp_ret. by apply registry_inv_weaken.
Qed.

Lemma preserves_leavegame player : preserves (leavegame player).
Proof.
  intros s Hinv. unfold leavegame. apply wp_bind, wp_gets.
  destruct (Player.game (player_at s player)) as [game|]; [|done].
  apply wp_bind, wp_gets.
  destruct (Game.is_open (game_at s game)); cbv beta iota delta [negb].
  - apply wp_bind.
    eapply wp_mono; [|by apply remove_player_inv].
    intros ? s1 Hinv1. apply wp_bind, wp_gets.
    destruct (Game.is_empty (game_at s1 game)) eqn:Hempty.
    + apply wp_bind.
      eapply wp_mono;
        [|eapply wp_call_callbacks_single;
            [exact callbacks_game_deletegame|by apply deletegame_restores]].
      by intros ? s2 Hinv2.
    + assert (Inv s1) as Hinv1'.
      { apply (registry_inv_nonempty game); [done|]. intros Hgame Hnil.
        destruct Hinv1 as [_ Hinv1].
        destruct (Hinv1 game Hgame) as (_ & [Hcnt _] & _).
        unfold Game.is_empty in Hempty. apply Z.eqb_neq in Hempty.
        rewrite Hcnt, Hnil in Hempty. done. }
      apply wp_bind.
      eapply wp_mono; [|by apply (frame_preserves _ (frame_send_gamestate _))].
      intros ? s2 Hinv2. apply wp_bind, wp_gets, wp_bind, wp_gets.
      destruct (_ && _); [|done].
      apply wp_bind.
      eapply wp_mono;
        [|eapply wp_call_callbacks_single;
            [exact callbacks_terminategame_terminategame
            |by apply preserves_terminategame]].
      by intros ? s3 Hinv3.
  - apply wp_bind.
    eapply wp_mono;
      [|eapply wp_call_callbacks_single;
          [exact callbacks_terminategame_terminategame
          |by apply preserves_terminategame]].
    by intros ? s3 Hinv3.
Qed.

(** Adding a player to a registered game that is not full. *)
Lemma add_player_inv game player clientversion playername playercolor clientid s :
  Inv s → game ∈ games s → Game.is_full (game_at s game) = false →
  wp (add_player game player clientversion playername playercolor clientid)
     (λ _, Inv) s.
Proof.
  intros [Hnodup Hinv] Hgame Hfull. unfold add_player.
  apply wp_bind, wp_modify, wp_modify.
  eapply (registry_inv_same_registry _ (update_game _ _ s)); [by split_and!|].
  split; [done|]. intros game' Hgame'.
  destruct (Hinv game' Hgame') as (Hlt & [Hcnt Hmax] & Hne).
  destruct (decide (game = game')) as [->|Hneq].
  - rewrite game_at_update_game. split_and!; [done| |].
    + unfold Game.is_full in Hfull. apply Z.eqb_neq in Hfull.
      split; simpl; [rewrite length_app; simpl; lia|lia].
    + intros _. simpl. by destruct (Game.players (game_at s game')).
  - rewrite game_at_update_game_ne by done. done.
Qed.

(** Creating a game for at least one player and registering it. *)
Lemma new_Game_inv pk creator s :
  Inv s → (1 ≤ pc.cmd_creategame.maxplayers pk)%Z →
  wp (new_Game pk creator)
     (λ game s', Inv (set_games (λ l, l ++ [game]) s')) s.
Proof.
  intros [Hnodup Hinv] Hmax. unfold new_Game.
  apply wp_bind, wp_gets, wp_bind, wp_modify, wp_bind, wp_modify.
  unfold add_player. apply wp_bind, wp_bind, wp_modify, wp_modify, wp_ret.
  set (game := next_ref s).
  assert (game ∉ games s) as Hfresh.
  { intros Hin. destruct (Hinv game Hin) as (Hlt & _). unfold game in Hlt. lia. }
  split.
  - simpl. apply NoDup_app. split_and!; [done| |apply NoDup_singleton].
    intros x Hx ->%list_elem_of_singleton. done.
  - intros game' Hgame'. simpl in Hgame'.
    apply elem_of_app in Hgame' as [Hold| ->%list_elem_of_singleton].
    + destruct (Hinv game' Hold) as (Hlt & Hb & Hne).
      assert (game ≠ game') as Hneq by (intros <-; done).
      change (game_at (set_games ?f ?x) ?r) with (game_at x r).
      rewrite game_at_update_game_ne by done.
      autorewrite with server.
      assert (∀ v x, game_at (set_game_objs (λ h, <[game := v]> h) x) game'
                     = game_at x game') as Hother.
      { intros v x. unfold game_at; simpl. by rewrite lookup_total_insert_ne. }
      rewrite Hother.
      change (game_at (set_next_ref ?n ?x) ?r) with (game_at x r).
      split_and!; [simpl; lia|done..].
    + change (game_at (set_games ?f ?x) ?r) with (game_at x r).
      rewrite game_at_update_game. autorewrite with server.
      unfold game_at. simpl. rewrite lookup_total_insert_eq.
      split_and!; [lia|split; simpl; lia|done].
Qed.

Lemma preserves_oncreategame args : preserves (oncreategame args).
Proof.
  destruct args as [player packet]. intros s Hinv. unfold oncreategame.
  destruct (pc.body packet) as [| | |pk| | | | | | | | | |]; try done.
  destruct (_ <? minplayers)%Z eqn:Hmin; [done|].
  destruct (maxplayers <? _)%Z; [done|].
  apply Z.ltb_ge in Hmin. unfold minplayers in Hmin.
  apply wp_bind.
  eapply wp_mono; [|apply new_Game_inv; [done|lia]].
  intros game s1 Hinv1. apply wp_bind, wp_modify. cbv beta.
  eapply wp_mono; [|apply (frame_preserves); [|exact Hinv1]].
  - by intros ? s2 Hinv2.
  - solve_frame.
Qed.

Lemma preserves_onjoingame args : preserves (onjoingame args).
Proof.
  destruct args as [player packet]. intros s Hinv. unfold onjoingame.
  destruct (pc.body packet) as [| | | | |pk| | | | | | | |]; try done.
  apply wp_bind, wp_gets. unfold id.
  assert (∀ message, wp (error player message ErrorType.NotSet >> return_None)
                        (λ _, Inv) s) as Herror.
  { intros message. apply (frame_preserves); [solve_frame|done]. }
  case_bool_decide; [apply Herror|].
  destruct (find_game_from_uuid s pk) as [game|] eqn:Hfind; [|apply Herror].
  destruct (Game.is_open _); cbv beta iota delta [negb]; [|apply Herror].
  destruct (Game.is_full _) eqn:Hfull; [apply Herror|].
  destruct (_ && _); [apply Herror|].
  destruct (find_collision _ _ _ _ _); [apply Herror|].
  apply wp_bind.
  eapply wp_mono;
    [|apply add_player_inv;
        [done|by eapply find_game_from_uuid_registered|done]].
  intros ? s1 Hinv1. apply wp_bind.
  eapply wp_mono; [|by apply (frame_preserves _ (frame_send_gamestate _))].
  intros ? s2 Hinv2. apply wp_bind, wp_gets, wp_bind, wp_gets.
  case_bool_decide; [|exact Hinv2].
  match goal with |- wp (if ?b then _ else _) _ _ => destruct b end;
    [|exact Hinv2].
  apply wp_bind.
  eapply wp_mono;
    [|eapply wp_call_callbacks_single;
        [exact callbacks_game_preparegame|by apply preserves_preparegame]].
  by intros ? s3 Hinv3.
Qed.

Lemma preserves_return_None : preserves return_None.
Proof. apply frame_preserves, frame_return_None. Qed.

Lemma preserves_send peer packet : preserves (send peer packet).
Proof. apply frame_preserves. solve_frame. Qed.

Lemma preserves_gets {A} (f : Server → A) : preserves (gets f).
Proof. apply frame_preserves, frame_gets. Qed.

Lemma preserves_leavegame_callback player :
  preserves (call_callbacks callbacks_leavegame "leavegame" player).
Proof.
  eapply preserves_call_callbacks;
    [exact callbacks_leavegame_leavegame|apply preserves_leavegame].
Qed.

Lemma preserves_onleavegame args : preserves (onleavegame args).
Proof.
  destruct args as [player packet]. unfold onleavegame.
  apply preserves_bind; [apply preserves_gets|]. intros p.
  destruct (Player.game p).
  - apply preserves_bind; [apply preserves_leavegame_callback|]. intros _.
    apply frame_preserves. solve_frame.
  - apply frame_preserves. solve_frame.
Qed.

Lemma preserves_onpreparedgame args : preserves (onpreparedgame args).
Proof.
  destruct args as [player packet]. unfold onpreparedgame.
  apply preserves_bind; [apply preserves_gets|]. intros p.
  destruct (Player.game p) as [game|]; [|apply preserves_return_None].
  apply preserves_bind; [apply frame_preserves; solve_frame|]. intros _.
  apply preserves_bind; [apply preserves_gets|]. intros count.
  apply preserves_bind; [apply preserves_gets|]. intros g.
  case_bool_decide; [apply preserves_return_None|].
  apply preserves_bind; [|intros _; apply preserves_return_None].
  eapply preserves_call_callbacks;
    [exact callbacks_game_startgame|apply preserves_startgame].
Qed.

Lemma preserves_ontoggleready args : preserves (ontoggleready args).
Proof.
  destruct args as [player packet]. unfold ontoggleready.
  apply preserves_bind; [apply preserves_gets|]. intros p.
  destruct (Player.game p) as [game|]; [|apply preserves_return_None].
  apply preserves_bind; [apply preserves_gets|]. intros g.
  destruct (negb _); [apply preserves_return_None|].
  apply preserves_bind; [apply frame_preserves; solve_frame|]. intros _.
  apply preserves_bind; [apply frame_preserves, frame_send_gamestate|].
  intros _. apply preserves_bind; [apply preserves_gets|]. intros ready.
  destruct ready; [|apply preserves_return_None].
  apply preserves_bind; [|intros _; apply preserves_return_None].
  eapply preserves_call_callbacks;
    [exact callbacks_game_preparegame|apply preserves_preparegame].
Qed.

Lemma preserves_onkick args : preserves (onkick args).
Proof.
  destruct args as [player packet]. unfold onkick.
  destruct (pc.body packet); try (apply frame_preserves; solve [solve_frame]).
  apply preserves_bind; [apply preserves_gets|]. intros s0.
  destruct (Player.game _) as [game|]; [|apply preserves_return_None].
  destruct (negb _); [apply preserves_return_None|].
  case_bool_decide; [apply preserves_return_None|].
  destruct (list_find _ _) as [[i kickplayer]|]; [|apply preserves_return_None].
  case_bool_decide; [apply preserves_return_None|].
  apply preserves_bind; [apply frame_preserves; solve_frame|]. intros _.
  apply preserves_bind; [apply preserves_leavegame_callback|].
  intros _. apply preserves_return_None.
Qed.

(** Every handler of a packet class keeps the invariant. *)
Lemma preserves_packet_callbacks player packet :
  preserves (call_callbacks callbacks_packet (pc.class_of (pc.body packet))
                            (player, packet)).
Proof.
  pose proof (callbacks_packet_class (pc.body packet)) as Hclass.
  destruct (pc.body packet);
    try (eapply preserves_call_callbacks; [exact Hclass|]).
  - apply frame_preserves, frame_onerror.
  - apply frame_preserves, frame_onfatalerror.
  - apply frame_preserves, frame_onsessionprops.
  - apply preserves_oncreategame.
  - apply frame_preserves, frame_onlistgames.
  - apply preserves_onjoingame.
  - apply preserves_onleavegame.
  - apply frame_preserves, frame_onchat.
  - apply frame_preserves, frame_onchangename.
  - apply frame_preserves, frame_onchangecolor.
  - apply preserves_onpreparedgame.
  - apply preserves_ontoggleready.
  - apply preserves_onkick.
  - intros s Hinv. unfold wp, call_callbacks.
    by destruct (call_callbacks_unknown_key callbacks_packet _ onerror
                   (player, packet) s true Hclass) as [-> _].
Qed.

Lemma preserves_ondisconnect event : preserves (ondisconnect event).
Proof.
  unfold ondisconnect.
  apply preserves_bind; [apply preserves_gets|]. intros s0.
  destruct (known_player _ _) as [player|]; [|apply preserves_return_None].
  apply preserves_bind.
  - case_bool_decide; [|apply frame_preserves; solve_frame].
    apply preserves_bind; [apply preserves_leavegame_callback|].
    intros _. apply frame_preserves. solve_frame.
  - intros _. apply frame_preserves. solve_frame.
Qed.

Section invariant.
Variable unserialize : list Byte.byte → Z → packets.parsed.

Lemma preserves_onreceive event : preserves (onreceive unserialize event).
Proof.
  unfold onreceive.
  apply preserves_bind; [apply preserves_gets|]. intros s0. unfold id.
  destruct (known_player _ _) as [player|];
    [|apply frame_preserves; solve_frame].
  destruct (_ <? _)%Z; [apply frame_preserves; solve_frame|].
  destruct (in_running_game _ _).
  { apply preserves_bind; [|intros _; apply preserves_return_None].
    eapply preserves_call_callbacks;
      [exact callbacks_gamedata_gamedata|apply frame_preserves, frame_gamedata]. }
  destruct (unserialize _ _) as [packet|e|e|e];
    try (apply frame_preserves; solve [solve_frame]).
  case_bool_decide; [apply frame_preserves; solve_frame|].
  case_bool_decide; [apply preserves_return_None|].
  apply preserves_bind; [|intros _; apply preserves_return_None].
  apply preserves_packet_callbacks.
Qed.

Lemma preserves_run_once event : preserves (run_once unserialize event).
Proof.
  unfold run_once. destruct (Event.type event).
  - apply frame_preserves, frame_ret.
  - apply preserves_bind; [apply frame_preserves; solve_frame|]. intros _.
    apply preserves_bind; [|intros _; apply frame_preserves; solve_frame].
    eapply preserves_call_callbacks;
      [apply callbacks_event_onconnect|apply frame_preserves, frame_onconnect].
  - apply preserves_bind; [apply frame_preserves; solve_frame|]. intros _.
    apply preserves_bind; [|intros _; apply frame_preserves; solve_frame].
    eapply preserves_call_callbacks;
      [apply callbacks_event_ondisconnect|apply preserves_ondisconnect].
  - apply preserves_bind; [|intros _; apply frame_preserves; solve_frame].
    eapply preserves_call_callbacks;
      [apply callbacks_event_onreceive|apply preserves_onreceive].
  - apply frame_preserves, frame_ret.
Qed.

Lemma initial_Inv languages : Inv (initial languages).
Proof.
  split; [apply NoDup_nil_2|]. intros game Hgame. by apply elem_of_nil in Hgame.
Qed.

Lemma reachable_Inv s : reachable unserialize s → Inv s.
Proof.
  induction 1 as [languages|s event s' _ IH Hrun].
  - apply initial_Inv.
  - pose proof (preserves_run_once event s IH) as Hwp.
    unfold wp in Hwp. by rewrite Hrun in Hwp.
Qed.

(** C6: in every state a sequence of transport events leads to (connects,
    disconnects and packets of any class, joins and leaves among them),
    every game in the registry has at least one member and at most as many
    as it allows, and its counter is the number of its members; a game
    that a leave has emptied is out of the registry when the handler
    returns. *)
Theorem registered_games_have_bounded_members s game :
  reachable unserialize s →
  game ∈ games s →
  let g := game_at s game in
  (0 ≤ Z.of_nat (length (Game.players g)) ≤ Game.maxplayers g)%Z
  ∧ Game.players g ≠ []
  ∧ Game.playercnt g = Z.of_nat (length (Game.players g)).
Proof.
  intros Hreach Hgame g.
  destruct (reachable_Inv s Hreach) as [_ Hinv].
  destruct (Hinv game Hgame) as (_ & [Hcnt Hmax] & Hne). subst g.
  split_and!; [lia|lia|by apply Hne|done].
Qed.

End invariant.

(** The state after a run of the loop that no exception ended can be
    reached. *)
Lemma reachable_run unserialize events s s' :
  reachable unserialize s →
  run unserialize events s = Ok () s' →
  reachable unserialize s'.
Proof.
  revert s. induction events as [|event rest IH]; intros s Hreach; simpl.
  - by intros [= <-].
  - unfold bind. destruct (run_once unserialize event s) as [[] s1|] eqn:Hstep;
      [|done].
    apply IH. by eapply reachable_run_once.
Qed.

(** "A" has created a game for two and "B" has joined it: the game has its
    two members. *)
Lemma registered_games_have_bounded_members_witness :
  let s := state_after lobby_events in
  let g := game_at s 1 in
  games s = [1]
  ∧ Game.players g = [0; 2]
  ∧ (0 ≤ Z.of_nat (length (Game.players g)) ≤ Game.maxplayers g)%Z
  ∧ Game.players g ≠ []
  ∧ Game.playercnt g = Z.of_nat (length (Game.players g)).
Proof.
  intros s g. split; [vm_compute; reflexivity|].
  split; [vm_compute; reflexivity|].
  apply (registered_games_have_bounded_members example_codec s 1).
  - apply (reachable_run example_codec lobby_events (initial ∅)).
    + apply reachable_initial.
    + vm_compute. reflexivity.
  - apply (bool_decide_unpack (1 ∈ _)). vm_compute. exact I.
Defined.

(** The scenario of the specification: "A" leaves the game of the lobby by
    disconnecting. The game is deleted, and "B" gets a termination notice
    after the membership snapshot. *)
Example creator_disconnects_from_lobby :
  let s := state_after lobby_events in
  let s' := state_after (lobby_events ++ [disconnect_event 1]) in
  games s' = []
  ∧ players s' = delete "A" (players s)
  ∧ Player.game (player_at s' 2) = None
  ∧ drop (length (outbox s)) (outbox s')
    = [Send 2 (sp.data_gamestate
                 {| snap_game :=
                      Game.set_players [2] 1 (game_at s 1);
                    snap_members := [player_at s 2] |});
       termination_notice s 2].
Proof. intros s s'. split_and!; vm_compute; reflexivity. Qed.

(** The scenario of the specification: "A" (protocol 1) creates a game for
    four with the password "x"; "B" asks to join with the password "y" and
    gets the soft error "Wrong password", and the game has "A" alone; "B"
    asks again with "x", and both get a membership snapshot that lists "A"
    and "B" in join order. *)
Example join_with_wrong_then_right_password :
  let created := [connect_event 1 1 "A"; receive_event 1 [Byte.x0f];
                  connect_event 2 1 "B"] in
  let s0 := state_after created in
  let s1 := state_after (created ++ [receive_event 2 [Byte.x10]]) in
  let s2 := state_after (created ++ [receive_event 2 [Byte.x10];
                                     receive_event 2 [Byte.x11]]) in
  s1 = after_error s0 2 "Wrong password" ErrorType.NotSet
  ∧ Game.players (game_at s1 1) = [0]
  ∧ Game.players (game_at s2 1) = [0; 2]
  ∧ drop (length (outbox s1)) (outbox s2)
    = [Send 1 (sp.data_gamestate (snapshot s2 1));
       Send 2 (sp.data_gamestate (snapshot s2 1))]
  ∧ snap_members (snapshot s2 1) = [player_at s2 0; player_at s2 2].
Proof. intros created s0 s1 s2. split_and!; vm_compute; reflexivity. Qed.

(** A kick aimed at the creator of the kicker's own game does nothing: a
    creator can only be kicked out of their game from another game that
    lists them as a member. *)
Lemma onkick_spares_creator s player packet kicksid game i :
  pc.body packet = pc.cmd_kickplayer kicksid →
  Player.game (player_at s player) = Some game →
  list_find (λ _player, Player.sid (player_at s _player) = kicksid)
            (Game.players (game_at s game))
    = Some (i, Game.creator (game_at s game)) →
  onkick (player, packet) s = Ok None s.
Proof.
  intros Hbody Hgame Hfind. unfold onkick. rewrite Hbody. mstep. unfold id.
  rewrite Hgame. destruct (negb _); [reflexivity|].
  case_bool_decide; [reflexivity|]. rewrite Hfind.
  by rewrite bool_decide_true.
Qed.

(** ** The creator leaves: on request, by disconnecting, by being kicked *)

(** A kick that passes the tests of [onkick] tells every member of the
    kicker's game and then runs [leavegame] for the kicked player. *)
Lemma onkick_runs_leavegame s kicker packet kicksid lobby i kickplayer :
  pc.body packet = pc.cmd_kickplayer kicksid →
  Player.game (player_at s kicker) = Some lobby →
  Game.is_open (game_at s lobby) = true →
  kicker = Game.creator (game_at s lobby) →
  list_find (λ _player, Player.sid (player_at s _player) = kicksid)
            (Game.players (game_at s lobby)) = Some (i, kickplayer) →
  kickplayer ≠ Game.creator (game_at s lobby) →
  onkick (kicker, packet) s =
  match leavegame kickplayer
          (set_outbox
             (λ o, o ++ broadcast s lobby
                          (sp.cmd_kickplayer (player_at s kickplayer))) s) with
  | Ok _ s' => Ok None s'
  | Raise e s' => Raise e s'
  end.
Proof.
  intros Hbody Hgame Hopen Hcreator Hfound Hother.
  unfold onkick. rewrite Hbody. mstep. unfold id. rewrite Hgame, Hopen.
  cbv beta iota delta [negb].
  rewrite bool_decide_false by (intros Hne; by apply Hne).
  rewrite Hfound. rewrite bool_decide_false by done.
  rewrite (bind_Ok _ _ _ _ _
             (for_send _ _
                (λ s' _player,
                   Send (Player.peer (player_at s' _player))
                        (sp.cmd_kickplayer (player_at s' kickplayer)))
                s (λ _ _, eq_refl) (λ _ _ _, eq_refl))).
  unfold call_callbacks, bind.
  rewrite (call_callbacks_single _ _ _ _ _ callbacks_leavegame_leavegame).
  fold (broadcast s lobby (sp.cmd_kickplayer (player_at s kickplayer))).
  by destruct (leavegame kickplayer _).
Qed.

Lemma ended_by_creator_intro s s' player game rest before after :
  game ∉ games s' →
  outbox s' = outbox s ++ before ++ creator_left s player game rest ++ after →
  (∀ member, member ∈ rest → Player.game (player_at s' member) = None) →
  ended_by_creator s s' player game rest before after.
Proof.
  intros Hgone Hout Hfree. split_and!; [|by rewrite Hout, drop_app_length|done].
  split; [done|]. intros member Hmember. eexists.
  rewrite Hout, drop_app_length. apply elem_of_app. right.
  apply elem_of_app. left. unfold creator_left. apply elem_of_app. right.
  apply list_elem_of_fmap. exists member. split; [reflexivity|done].
Qed.

(** C4, as amended: the creator of an open game, on protocol 1 or later and
    with that game as the game the server has on record for them
    ([player.game]), leaves while other members remain. Whether the creator
    leaves on request, by being disconnected, or by being kicked (by the
    creator of another game that lists them as a member), the game is
    deleted from the registry; after a membership snapshot, every
    remaining member is sent the termination notice, in join order, and
    belongs to no game any more. On request the creator is sent an
    acknowledgement after that, and before a kick every member of the
    kicker's game is sent the kick notice. *)
Theorem creator_leaving_open_game_terminates s player game rest :
  Inv s →
  game ∈ games s →
  Player.game (player_at s player) = Some game →
  Game.is_open (game_at s game) = true →
  Game.creator (game_at s game) = player →
  (1 ≤ Player.protocol (player_at s player))%Z →
  list_remove_first player (Game.players (game_at s game)) = Some rest →
  rest ≠ [] →
  (∀ packet,
     ∃ s', onleavegame (player, packet) s = Ok None s'
           ∧ ended_by_creator s s' player game rest []
               [Send (Player.peer (player_at s player)) sp.cmd_ok])
  ∧ (∀ event,
       known_player s (Event.peer event) = Some player →
       ∃ s', ondisconnect event s = Ok None s'
             ∧ ended_by_creator s s' player game rest [] []
             ∧ known_player s' (Event.peer event) = None)
  ∧ (∀ kicker packet kicksid lobby i,
       pc.body packet = pc.cmd_kickplayer kicksid →
       Player.game (player_at s kicker) = Some lobby →
       Game.is_open (game_at s lobby) = true →
       kicker = Game.creator (game_at s lobby) →
       list_find (λ _player, Player.sid (player_at s _player) = kicksid)
                 (Game.players (game_at s lobby)) = Some (i, player) →
       player ≠ Game.creator (game_at s lobby) →
       ∃ s', onkick (kicker, packet) s = Ok None s'
             ∧ ended_by_creator s s' player game rest
                 (broadcast s lobby (sp.cmd_kickplayer (player_at s player)))
                 []).
Proof.
  intros HInv Hreg Hgame Hopen Hcreator Hproto Hrest Hne.
  destruct (leavegame_by_creator s player game rest HInv Hreg Hgame Hopen
              Hcreator Hproto Hrest Hne)
    as (s1 & Hleave & Hgone & Hout & Hfree & Hplayers & Hdatas & Hpeer).
  split_and!.
  - intros packet.
    rewrite (onleavegame_runs_leavegame s player packet game Hgame), Hleave.
    eexists. split; [reflexivity|].
    apply ended_by_creator_intro; [done| |done].
    simpl. by rewrite Hout, Hpeer, <- app_assoc.
  - intros event Hknown. unfold known_player in Hknown.
    destruct (peer_data s !! Event.peer event) as [session_id|] eqn:Hdata;
      [|done].
    simpl in Hknown.
    rewrite (ondisconnect_runs_leavegame s event player session_id game
               Hdata Hknown Hgame), Hleave.
    eexists. split; [reflexivity|]. split.
    + apply ended_by_creator_intro; [done| |done].
      simpl. by rewrite Hout, app_nil_r.
    + unfold known_player. simpl.
      rewrite Hdatas, Hdata. simpl. apply lookup_delete_eq.
  - intros kicker packet kicksid lobby i Hbody Hkgame Hkopen Hkcreator
      Hfound Hother.
    rewrite (onkick_runs_leavegame s kicker packet kicksid lobby i player
               Hbody Hkgame Hkopen Hkcreator Hfound Hother).
    set (kicks := broadcast s lobby (sp.cmd_kickplayer (player_at s player))).
    destruct (leavegame_by_creator (set_outbox (λ o, o ++ kicks) s)
                player game rest)
      as (s2 & Hleave2 & Hgone2 & Hout2 & Hfree2 & _); try done.
    rewrite Hleave2. eexists. split; [reflexivity|].
    apply ended_by_creator_intro; [done| |done].
    rewrite Hout2. simpl. rewrite app_nil_r, <- app_assoc. reflexivity.
Qed.

Lemma second_game_Inv : Inv second_game_state.
Proof.
  apply (reachable_Inv second_game_codec).
  apply (reachable_run second_game_codec second_game_events (initial ∅)).
  - apply reachable_initial.
  - vm_compute. reflexivity.
Qed.

(** "B" is listed in the game of "A" (reference 1) and is the creator of
    game 3, the game "B" is in, with "C" as the other member. Whether "B"
    asks to leave, is disconnected, or is kicked from game 1 by "A", game 3
    ends and "C" is told. *)
Lemma creator_leaving_open_game_terminates_witness :
  let s := second_game_state in
  (games s = [1; 3] ∧ Game.players (game_at s 1) = [0; 2]
   ∧ Game.players (game_at s 3) = [2; 4])
  ∧ (∃ s', onleavegame (2, plain_packet "B" pc.cmd_leavegame) s = Ok None s'
           ∧ ended_by_creator s s' 2 3 [4] []
               [Send (Player.peer (player_at s 2)) sp.cmd_ok])
  ∧ (∃ s', ondisconnect (disconnect_event 2) s = Ok None s'
           ∧ ended_by_creator s s' 2 3 [4] [] []
           ∧ known_player s' (Event.peer (disconnect_event 2)) = None)
  ∧ (∃ s', onkick (0, plain_packet "A" (pc.cmd_kickplayer "B")) s = Ok None s'
           ∧ ended_by_creator s s' 2 3 [4]
               (broadcast s 1 (sp.cmd_kickplayer (player_at s 2))) []).
Proof.
  intros s. split; [split_and!; vm_compute; reflexivity|].
  destruct (creator_leaving_open_game_terminates s 2 3 [4])
    as (Hrequest & Hdisconnect & Hkick).
  - exact second_game_Inv.
  - apply (bool_decide_unpack (3 ∈ _)). vm_compute. exact I.
  - vm_compute. reflexivity.
  - vm_compute. reflexivity.
  - vm_compute. reflexivity.
  - vm_compute. discriminate.
  - vm_compute. reflexivity.
  - discriminate.
  - split; [apply Hrequest|]. split.
    + apply Hdisconnect. vm_compute. reflexivity.
    + apply (Hkick 0 (plain_packet "A" (pc.cmd_kickplayer "B")) "B" 1 1).
      * reflexivity.
      * vm_compute. reflexivity.
      * vm_compute. reflexivity.
      * vm_compute. reflexivity.
      * vm_compute. reflexivity.
      * vm_compute. discriminate.
Defined.

(** Why the game has to be the one on record for the creator:
    [oncreategame] does not ask whether the player is in a game already.
    "A" has created game 1, "B" has joined it, and "A" has created game 3,
    which is the game of "A" from then on. When "A" is disconnected,
    [leavegame] deals with game 3; game 1, open, with its creator gone and
    "B" in it, stays in the registry with both on its list, and nothing is
    sent to "B". *)
Example creator_of_two_games_leaves_the_second :
  let s := state_after (lobby_events ++ [receive_event 1 [Byte.x0a]]) in
  let s' := state_of (run_once example_codec (disconnect_event 1) s) in
  games s = [1; 3]
  ∧ Game.creator (game_at s 1) = 0
  ∧ Game.state (game_at s 1) = Game.State.Open
  ∧ Game.players (game_at s 1) = [0; 2]
  ∧ Player.game (player_at s 0) = Some 3
  ∧ returns (run_once example_codec (disconnect_event 1) s) = true
  ∧ games s' = [1]
  ∧ Game.players (game_at s' 1) = [0; 2]
  ∧ known_player s' 1 = None
  ∧ drop (length (outbox s)) (outbox s') = [].
Proof. intros s s'. split_and!; vm_compute; reflexivity. Qed.

(** ** What moves a game on *)

Lemma no_progress_refl s : no_progress s s.
Proof. intros game. by left. Qed.

Lemma no_progress_trans s1 s2 s3 :
  no_progress s1 s2 → no_progress s2 s3 → no_progress s1 s3.
Proof.
  intros H12 H23 game. destruct (H23 game) as [->|?]; [apply H12|by right].
Qed.

Lemma no_progress_game_objs s s' :
  game_objs s' = game_objs s → no_progress s s'.
Proof. intros Heq game. left. unfold game_at. by rewrite Heq. Qed.

Lemma keeps_states_ret {A} (a : A) : keeps_states (ret a).
Proof. intros s. apply no_progress_refl. Qed.

Lemma keeps_states_bind {A B} (m : M A) (k : A → M B) :
  keeps_states m → (∀ a, keeps_states (k a)) → keeps_states (bind m k).
Proof.
  intros Hm Hk s. unfold bind. specialize (Hm s).
  destruct (m s) as [a s'|e s']; [|done].
  eapply no_progress_trans; [exact Hm|apply Hk].
Qed.

Lemma keeps_states_for {A} (l : list A) (body : A → M unit) :
  (∀ x, keeps_states (body x)) → keeps_states (for_ l body).
Proof.
  intros Hbody. induction l as [|x l IH]; simpl.
  - apply keeps_states_ret.
  - apply keeps_states_bind; [apply Hbody|]. intros _. apply IH.
Qed.

Lemma keeps_states_call_callbacks {A}
    (callbacks : gmap string (list (handler A))) type cb args :
  callbacks !! type = Some [cb] →
  keeps_states (cb args) →
  keeps_states (call_callbacks callbacks type args).
Proof.
  intros Hcb Hkeeps s. unfold call_callbacks.
  rewrite (call_callbacks_single _ _ _ _ _ Hcb).
  specialize (Hkeeps s). by destruct (cb args s).
Qed.

(** Code that leaves the game objects alone moves no game on. *)
Lemma frame_keeps_states {A} (m : M A) : frame m → keeps_states m.
Proof.
  intros Hframe s. specialize (Hframe s).
  destruct (m s) as [a s'|e s']; destruct Hframe as (_ & Hobjs & _);
    by apply no_progress_game_objs.
Qed.

(** An update of a game object that keeps its state. *)
Lemma keeps_states_update_game game f :
  (∀ g, Game.state (f g) = Game.state g) →
  keeps_states (modify (update_game game f)).
Proof.
  intros Hf s game'. left. simpl.
  destruct (decide (game = game')) as [<-|Hne].
  - by rewrite game_at_update_game.
  - by rewrite game_at_update_game_ne.
Qed.

Lemma keeps_states_set_games f : keeps_states (modify (set_games f)).
Proof. intros s. by apply no_progress_game_objs. Qed.

Lemma keeps_states_remove_player game player :
  keeps_states (remove_player game player).
Proof.
  unfold remove_player.
  apply keeps_states_bind; [apply frame_keeps_states, frame_gets|]. intros g.
  destruct (list_remove_first _ _); [|apply keeps_states_ret].
  apply keeps_states_bind; [by apply keeps_states_update_game|]. intros _.
  apply frame_keeps_states, frame_update_player.
Qed.

Lemma keeps_states_clear game : keeps_states (clear game).
Proof.
  unfold clear.
  apply keeps_states_bind; [apply frame_keeps_states, frame_gets|]. intros g.
  apply keeps_states_bind; [|intros _; by apply keeps_states_update_game].
  apply keeps_states_for. intros member.
  apply frame_keeps_states, frame_update_player.
Qed.

Lemma keeps_states_deletegame game : keeps_states (deletegame game).
Proof.
  unfold deletegame.
  apply keeps_states_bind; [apply keeps_states_clear|]. intros _.
  apply keeps_states_bind; [apply frame_keeps_states, frame_gets|].
  intros registry.
  destruct (list_remove_first _ _);
    [|apply frame_keeps_states, frame_raise].
  apply keeps_states_bind; [apply keeps_states_set_games|]. intros _.
  apply keeps_states_ret.
Qed.

Lemma keeps_states_deletegame_callback game :
  keeps_states (call_callbacks callbacks_game "deletegame" game).
Proof.
  eapply keeps_states_call_callbacks;
    [exact callbacks_game_deletegame|apply keeps_states_deletegame].
Qed.

Lemma keeps_states_terminategame args : keeps_states (terminategame args).
Proof.
  destruct args as [game player]. unfold terminategame.
  apply keeps_states_bind; [apply frame_keeps_states, frame_gets|]. intros g.
  apply keeps_states_bind; [apply frame_keeps_states, frame_gets|].
  intros creator.
  apply keeps_states_bind; [apply frame_keeps_states; solve_frame|]. intros _.
  apply keeps_states_bind; [apply keeps_states_deletegame_callback|].
  intros _. apply keeps_states_ret.
Qed.

Lemma keeps_states_terminategame_callback args :
  keeps_states (call_callbacks callbacks_terminategame "terminategame" args).
Proof.
  eapply keeps_states_call_callbacks;
    [exact callbacks_terminategame_terminategame
    |apply keeps_states_terminategame].
Qed.

Lemma keeps_states_leavegame player : keeps_states (leavegame player).
Proof.
  unfold leavegame.
  apply keeps_states_bind; [apply frame_keeps_states, frame_gets|]. intros p.
  destruct (Player.game p) as [game|];
    [|apply frame_keeps_states, frame_raise].
  apply keeps_states_bind; [apply frame_keeps_states, frame_gets|]. intros g.
  destruct (negb _).
  { apply keeps_states_bind; [apply keeps_states_terminategame_callback|].
    intros _. apply keeps_states_ret. }
  apply keeps_states_bind; [apply keeps_states_remove_player|]. intros _.
  apply keeps_states_bind; [apply frame_keeps_states, frame_gets|]. intros g'.
  destruct (Game.is_empty g').
  { apply keeps_states_bind; [apply keeps_states_deletegame_callback|].
    intros _. apply keeps_states_ret. }
  apply keeps_states_bind; [apply frame_keeps_states, frame_send_gamestate|].
  intros _.
  apply keeps_states_bind; [apply frame_keeps_states, frame_gets|]. intros p'.
  apply keeps_states_bind; [apply frame_keeps_states, frame_gets|]. intros g''.
  destruct (_ && _); [|apply keeps_states_ret].
  apply keeps_states_bind; [apply keeps_states_terminategame_callback|].
  intros _. apply keeps_states_ret.
Qed.

Lemma keeps_states_leavegame_callback player :
  keeps_states (call_callbacks callbacks_leavegame "leavegame" player).
Proof.
  eapply keeps_states_call_callbacks;
    [exact callbacks_leavegame_leavegame|apply keeps_states_leavegame].
Qed.

Lemma keeps_states_onleavegame args : keeps_states (onleavegame args).
Proof.
  destruct args as [player packet]. unfold onleavegame.
  apply keeps_states_bind; [apply frame_keeps_states, frame_gets|]. intros p.
  destruct (Player.game p); [|apply frame_keeps_states; solve_frame].
  apply keeps_states_bind; [apply keeps_states_leavegame_callback|].
  intros _. apply frame_keeps_states. solve_frame.
Qed.

Lemma keeps_states_onkick args : keeps_states (onkick args).
Proof.
  destruct args as [player packet]. unfold onkick.
  destruct (pc.body packet);
    try (apply frame_keeps_states; solve [solve_frame]).
  apply keeps_states_bind; [apply frame_keeps_states, frame_gets|]. intros s0.
  destruct (Player.game _) as [game|]; [|apply keeps_states_ret].
  destruct (negb _); [apply keeps_states_ret|].
  case_bool_decide; [apply keeps_states_ret|].
  destruct (list_find _ _) as [[i kickplayer]|]; [|apply keeps_states_ret].
  case_bool_decide; [apply keeps_states_ret|].
  apply keeps_states_bind; [apply frame_keeps_states; solve_frame|]. intros _.
  apply keeps_states_bind; [apply keeps_states_leavegame_callback|].
  intros _. apply keeps_states_ret.
Qed.

Lemma keeps_states_ondisconnect event : keeps_states (ondisconnect event).
Proof.
  unfold ondisconnect.
  apply keeps_states_bind; [apply frame_keeps_states, frame_gets|]. intros s0.
  destruct (known_player _ _) as [player|]; [|apply keeps_states_ret].
  apply keeps_states_bind.
  - case_bool_decide; [|apply keeps_states_ret].
    apply keeps_states_bind; [apply keeps_states_leavegame_callback|].
    intros _. apply keeps_states_ret.
  - intros _. apply frame_keeps_states. solve_frame.
Qed.

(** A new game is Open. *)
Lemma keeps_states_new_Game pk creator : keeps_states (new_Game pk creator).
Proof.
  intros s game. unfold new_Game, add_player. simpl.
  change (game_at (update_game ?g ?f ?x) game)
    with (game_at (update_game g f x) game).
  destruct (decide (next_ref s = game)) as [<-|Hne].
  - right. rewrite game_at_update_game. simpl.
    change (game_at (update_player ?r ?f ?x) ?g) with (game_at x g).
    unfold game_at. simpl. by rewrite lookup_total_insert_eq.
  - left. rewrite game_at_update_game_ne by done.
    change (game_at (update_player ?r ?f ?x) ?g) with (game_at x g).
    unfold game_at. simpl. by rewrite lookup_total_insert_ne.
Qed.

Lemma keeps_states_oncreategame args : keeps_states (oncreategame args).
Proof.
  destruct args as [player packet]. unfold oncreategame.
  destruct (pc.body packet);
    try (apply frame_keeps_states; solve [solve_frame]).
  destruct (_ <? _)%Z; [apply frame_keeps_states, frame_raise|].
  destruct (_ <? _)%Z; [apply frame_keeps_states, frame_raise|].
  apply keeps_states_bind; [apply keeps_states_new_Game|]. intros game.
  apply keeps_states_bind; [apply keeps_states_set_games|]. intros _.
  apply frame_keeps_states. solve_frame.
Qed.

Lemma keeps_states_Ok {A} (m : M A) s a s' :
  keeps_states m → m s = Ok a s' → no_progress s s'.
Proof. intros Hkeeps Hrun. specialize (Hkeeps s). by rewrite Hrun in Hkeeps. Qed.

Lemma bind_Ok_inv {A B} (m : M A) (k : A → M B) s b s' :
  bind m k s = Ok b s' → ∃ a s1, m s = Ok a s1 ∧ k a s1 = Ok b s'.
Proof.
  unfold bind. destruct (m s) as [a s1|]; [|done]. intros Hk. by exists a, s1.
Qed.

Lemma call_callbacks_single_Ok {A}
    (callbacks : gmap string (list (handler A))) type cb args s r s' :
  callbacks !! type = Some [cb] →
  call_callbacks callbacks type args s = Ok r s' →
  ∃ r', cb args s = Ok r' s'.
Proof.
  intros Hcb. unfold call_callbacks.
  rewrite (call_callbacks_single _ _ _ _ _ Hcb).
  destruct (cb args s) as [r' s1|]; [|done]. intros [= _ <-]. by exists r'.
Qed.

(** A ready-toggle moves one game at most: the game of the player, from
    Open to Prepare, with every member ready. *)
Lemma ontoggleready_states s player packet r s' game :
  ontoggleready (player, packet) s = Ok r s' →
  members_bounded (game_at s game) →
  Game.state (game_at s' game) = Game.state (game_at s game)
  ∨ (Player.game (player_at s player) = Some game
     ∧ Game.state (game_at s game) = Game.State.Open
     ∧ Game.state (game_at s' game) = Game.State.Prepare
     ∧ all_ready s' game).
Proof.
  intros Hrun Hbounded.
  destruct (Player.game (player_at s player)) as [game0|] eqn:Hgame.
  2:{ unfold ontoggleready in Hrun. rewrite bind_gets, Hgame in Hrun.
      injection Hrun as _ <-. by left. }
  destruct (Game.is_open (game_at s game0)) eqn:Hopen.
  2:{ unfold ontoggleready in Hrun.
      rewrite bind_gets, Hgame, bind_gets, Hopen in Hrun.
      injection Hrun as _ <-. by left. }
  rewrite (ontoggleready_open s player packet game0 Hgame Hopen) in Hrun.
  injection Hrun as _ <-. cbv zeta.
  set (s1 := update_player player Player.toggle_ready s).
  destruct (is_ready s1 game0) eqn:Hready; [|by left].
  destruct (decide (game0 = game)) as [->|Hne].
  - right. apply bool_decide_eq_true in Hopen. split_and!; [done..| |].
    + autorewrite with server. reflexivity.
    + apply (is_ready_all_ready s1 game Hbounded) in Hready.
      unfold all_ready in Hready |- *. autorewrite with server.
      exact Hready.
  - left. autorewrite with server. by rewrite game_at_update_game_ne.
Qed.

(** A prepared-acknowledgement moves one game at most: the game of the
    player, to Running, with every member prepared. *)
Lemma onpreparedgame_states s player packet r s' game :
  onpreparedgame (player, packet) s = Ok r s' →
  members_bounded (game_at s game) →
  Game.state (game_at s' game) = Game.state (game_at s game)
  ∨ (Player.game (player_at s player) = Some game
     ∧ Game.state (game_at s' game) = Game.State.Running
     ∧ all_prepared s' game).
Proof.
  intros Hrun Hbounded.
  destruct (Player.game (player_at s player)) as [game0|] eqn:Hgame.
  2:{ unfold onpreparedgame in Hrun. rewrite bind_gets, Hgame in Hrun.
      injection Hrun as _ <-. by left. }
  rewrite (onpreparedgame_member s player packet game0 Hgame) in Hrun.
  injection Hrun as _ <-. cbv zeta.
  set (s1 := update_player player (Player.set_prepared true) s).
  case_bool_decide as Hcount; [by left|].
  destruct (decide (game0 = game)) as [->|Hne].
  - right. split_and!; [done| |].
    + autorewrite with server. reflexivity.
    + assert (count_prepared s1 game = Game.playercnt (game_at s1 game))
        as Hall.
      { by destruct (decide (count_prepared s1 game
                             = Game.playercnt (game_at s1 game))). }
      apply (count_prepared_all_prepared s1 game Hbounded) in Hall.
      unfold all_prepared in Hall |- *. autorewrite with server.
      exact Hall.
  - left. autorewrite with server. by rewrite game_at_update_game_ne.
Qed.

Lemma join_accepted_or_refused s player pk :
  (∃ game, join_accepted s player pk game)
  ∨ (∀ game, ¬ join_accepted s player pk game).
Proof.
  destruct (find_game_from_uuid s pk) as [game0|] eqn:Hfind.
  2:{ right. intros game (_ & Hf & _). congruence. }
  assert (∀ game, join_accepted s player pk game → game = game0) as Hsame.
  { intros game (_ & Hf & _). congruence. }
  destruct (decide (Player.game (player_at s player) = None)) as [Hnone|Hin].
  2:{ right. intros game (? & _). done. }
  destruct (Game.is_open (game_at s game0)) eqn:Hopen.
  2:{ right. intros game Hacc. pose proof (Hsame game Hacc) as ->.
      destruct Hacc as (_ & _ & Ho & _). congruence. }
  destruct (Game.is_full (game_at s game0)) eqn:Hfull.
  { right. intros game Hacc. pose proof (Hsame game Hacc) as ->.
    destruct Hacc as (_ & _ & _ & Hf & _). congruence. }
  destruct (Game.has_password (game_at s game0)
            && bool_decide (pc.cmd_joingame.password pk
                            ≠ Game.password (game_at s game0))) eqn:Hpw.
  { right. intros game Hacc. pose proof (Hsame game Hacc) as ->.
    destruct Hacc as (_ & _ & _ & _ & Hp & _). congruence. }
  destruct (find_collision s (Game.players (game_at s game0))
              (pc.cmd_joingame.playername pk) (derived_color s game0 pk)
              (pc.cmd_joingame.clientid pk)) eqn:Hcoll.
  { right. intros game Hacc. pose proof (Hsame game Hacc) as ->.
    destruct Hacc as (_ & _ & _ & _ & _ & Hc). congruence. }
  left. exists game0. by split_and!.
Qed.

Lemma joined_state s player pk game0 game :
  Game.state (game_at (joined s player pk game0) game)
  = Game.state (game_at s game).
Proof.
  unfold joined. destruct (decide (game0 = game)) as [->|Hne].
  - by rewrite game_at_update_game.
  - by rewrite game_at_update_game_ne.
Qed.

(** A join moves one game at most: the game joined, from Open to Prepare,
    when the join is on protocol 0 and fills the game. *)
Lemma onjoingame_states s player packet pk r s' game :
  pc.body packet = pc.cmd_joingame pk →
  onjoingame (player, packet) s = Ok r s' →
  Game.state (game_at s' game) = Game.state (game_at s game)
  ∨ (join_accepted s player pk game
     ∧ Player.protocol (player_at s player) = 0%Z
     ∧ Game.is_full (game_at s' game) = true
     ∧ Game.state (game_at s' game) = Game.State.Prepare).
Proof.
  intros Hbody Hrun.
  destruct (join_accepted_or_refused s player pk) as [[game0 Hacc]|Hrefused].
  2:{ destruct (onjoingame_refused s player packet pk Hbody Hrefused)
        as [message Herr].
      rewrite Herr in Hrun. injection Hrun as _ <-. by left. }
  rewrite (onjoingame_accepted s player packet pk game0 Hbody Hacc) in Hrun.
  injection Hrun as _ <-. cbv zeta.
  rewrite joined_player.
  change (Player.protocol (Player.join _ _ _ _ _ ?p)) with (Player.protocol p).
  set (s1 := joined s player pk game0).
  pose proof (joined_state s player pk game0 game) as Hstate. fold s1 in Hstate.
  case_bool_decide as Hproto; cbv beta iota delta [andb].
  2:{ left. by rewrite game_at_set_outbox. }
  destruct (Game.is_full (game_at s1 game0)) eqn:Hfull.
  2:{ left. by rewrite game_at_set_outbox. }
  rewrite game_at_set_outbox.
  destruct (decide (game0 = game)) as [->|Hne].
  - right. rewrite game_at_update_game, game_at_set_outbox.
    split_and!; [done|done|exact Hfull|reflexivity].
  - left. by rewrite game_at_update_game_ne, game_at_set_outbox.
Qed.

Section handshake.

Variable unserialize : list Byte.byte → Z → packets.parsed.

(** Of all the server does with data it receives, only three handlers can
    move a game on: those of a ready-toggle, of a join request and of a
    prepared-acknowledgement, each run for a packet that parsed and
    carries the session id of its sender. *)
Lemma onreceive_progress event s r s' :
  Event.type event = EventType.RECEIVE →
  onreceive unserialize event s = Ok r s' →
  no_progress s s'
  ∨ ∃ player packet r',
      received unserialize s event player packet
      ∧ ((pc.body packet = pc.cmd_toggleready
          ∧ ontoggleready (player, packet) s = Ok r' s')
         ∨ ((∃ pk, pc.body packet = pc.cmd_joingame pk)
            ∧ onjoingame (player, packet) s = Ok r' s')
         ∨ (pc.body packet = pc.cmd_preparedgame
            ∧ onpreparedgame (player, packet) s = Ok r' s')).
Proof.
  intros Htype Hrun. unfold onreceive in Hrun. rewrite bind_gets in Hrun.
  unfold id in Hrun.
  destruct (known_player s (Event.peer event)) as [player|] eqn:Hknown.
  2:{ left. refine (keeps_states_Ok _ s r s' _ Hrun).
      apply frame_keeps_states. solve_frame. }
  cbv zeta in Hrun.
  destruct (maxpacketsize <? _)%Z.
  { left. refine (keeps_states_Ok _ s r s' _ Hrun).
    apply frame_keeps_states. solve_frame. }
  destruct (in_running_game s player).
  { left. refine (keeps_states_Ok _ s r s' _ Hrun).
    apply keeps_states_bind; [|intros _; apply keeps_states_ret].
    eapply keeps_states_call_callbacks;
      [exact callbacks_gamedata_gamedata
      |apply frame_keeps_states, frame_gamedata]. }
  destruct (unserialize _ _) as [packet|e|e|e] eqn:Hparsed;
    try (left; refine (keeps_states_Ok _ s r s' _ Hrun);
         apply frame_keeps_states; solve [solve_frame]).
  destruct (bool_decide (pc.sid packet ≠ Player.sid (player_at s player)))
    eqn:Hsid.
  { left. refine (keeps_states_Ok _ s r s' _ Hrun).
    apply frame_keeps_states. solve_frame. }
  apply bool_decide_eq_false, dec_stable in Hsid.
  destruct (bool_decide (callbacks_packet !! _ = None)).
  { injection Hrun as _ <-. left. apply no_progress_refl. }
  apply bind_Ok_inv in Hrun as (a & s1 & Hcall & Hret).
  injection Hret as _ <-.
  assert (received unserialize s event player packet) as Hreceived
    by (by split_and!).
  pose proof (callbacks_packet_class (pc.body packet)) as Hclass.
  destruct (pc.body packet) eqn:Hbody;
    try (destruct (call_callbacks_single_Ok _ _ _ _ _ _ _ Hclass Hcall)
           as [r' Hhandler]).
  - left. refine (keeps_states_Ok _ s r' s1 _ Hhandler).
    apply frame_keeps_states, frame_onerror.
  - left. refine (keeps_states_Ok _ s r' s1 _ Hhandler).
    apply frame_keeps_states, frame_onfatalerror.
  - left. refine (keeps_states_Ok _ s r' s1 _ Hhandler).
    apply frame_keeps_states, frame_onsessionprops.
  - left. refine (keeps_states_Ok _ s r' s1 _ Hhandler).
    apply keeps_states_oncreategame.
  - left. refine (keeps_states_Ok _ s r' s1 _ Hhandler).
    apply frame_keeps_states, frame_onlistgames.
  - right. exists player, packet, r'. split; [done|].
    right. left. split; [by eexists|done].
  - left. refine (keeps_states_Ok _ s r' s1 _ Hhandler).
    apply keeps_states_onleavegame.
  - left. refine (keeps_states_Ok _ s r' s1 _ Hhandler).
    apply frame_keeps_states, frame_onchat.
  - left. refine (keeps_states_Ok _ s r' s1 _ Hhandler).
    apply frame_keeps_states, frame_onchangename.
  - left. refine (keeps_states_Ok _ s r' s1 _ Hhandler).
    apply frame_keeps_states, frame_onchangecolor.
  - right. exists player, packet, r'. split; [done|].
    right. right. by split.
  - right. exists player, packet, r'. split; [done|].
    left. by split.
  - left. refine (keeps_states_Ok _ s r' s1 _ Hhandler).
    apply keeps_states_onkick.
  - destruct (call_callbacks_unknown_key callbacks_packet _ onerror
                (player, packet) s true Hclass) as [Hnone _].
    unfold call_callbacks in Hcall. rewrite Hnone in Hcall.
    injection Hcall as _ <-. left. apply no_progress_refl.
Qed.

(** The same for one turn of the loop: connects, disconnects and idle
    turns move no game on. *)
Lemma run_once_progress event s s' :
  run_once unserialize event s = Ok () s' →
  no_progress s s'
  ∨ ∃ player packet r',
      received unserialize s event player packet
      ∧ ((pc.body packet = pc.cmd_toggleready
          ∧ ontoggleready (player, packet) s = Ok r' s')
         ∨ ((∃ pk, pc.body packet = pc.cmd_joingame pk)
            ∧ onjoingame (player, packet) s = Ok r' s')
         ∨ (pc.body packet = pc.cmd_preparedgame
            ∧ onpreparedgame (player, packet) s = Ok r' s')).
Proof.
  unfold run_once. destruct (Event.type event) eqn:Htype; intros Hrun.
  - injection Hrun as <-. left. apply no_progress_refl.
  - left. refine (keeps_states_Ok _ s () s' _ Hrun).
    apply keeps_states_bind; [apply frame_keeps_states; solve_frame|].
    intros _.
    apply keeps_states_bind; [|intros _; apply keeps_states_ret].
    eapply keeps_states_call_callbacks;
      [apply callbacks_event_onconnect
      |apply frame_keeps_states, frame_onconnect].
  - left. refine (keeps_states_Ok _ s () s' _ Hrun).
    apply keeps_states_bind; [apply frame_keeps_states; solve_frame|].
    intros _.
    apply keeps_states_bind; [|intros _; apply keeps_states_ret].
    eapply keeps_states_call_callbacks;
      [apply callbacks_event_ondisconnect|apply keeps_states_ondisconnect].
  - apply bind_Ok_inv in Hrun as (a & s1 & Hcall & Hret).
    injection Hret as <-.
    destruct (call_callbacks_single_Ok _ _ _ _ _ _ _
                (callbacks_event_onreceive unserialize) Hcall) as [r Hon].
    by apply (onreceive_progress event s r s1).
  - injection Hrun as <-. left. apply no_progress_refl.
Qed.

(** C5, as amended. For a game whose counter is the number of its
    members:
    - a ready-toggle by a player whose game it is ([player.game]), while
      it is Open, puts the game into Prepare, with a prepare packet to
      every member after the membership snapshots, exactly when every
      member is ready after the toggle; otherwise the game stays Open and
      only the snapshots are sent;
    - a prepared-acknowledgement by a player whose game it is, while it is
      in Prepare, puts the game into Running, with a start packet to
      every member, exactly when every member has acknowledged after it;
      otherwise the game stays in Prepare and nothing is sent;
    - in one turn of the loop, whatever the event and the codec, the game
      goes from Open to Prepare only by such a ready-toggle, after which
      every member is ready, or by an accepted join on protocol 0 that
      fills the game;
    - in one turn of the loop the game becomes Running only by a
      prepared-acknowledgement of a player whose game it is, after which
      every member has acknowledged. *)
Theorem ready_then_prepared_handshake s game :
  members_bounded (game_at s game) →
  (∀ player packet,
     Player.game (player_at s player) = Some game →
     (Game.state (game_at s game) = Game.State.Open →
      let s1 := update_player player Player.toggle_ready s in
      ∃ s', ontoggleready (player, packet) s = Ok None s'
            ∧ (all_ready s1 game →
                 Game.state (game_at s' game) = Game.State.Prepare
                 ∧ outbox s' = outbox s ++ gamestate_broadcast s1 game
                                 ++ broadcast s' game sp.cmd_preparegame)
            ∧ (¬ all_ready s1 game →
                 Game.state (game_at s' game) = Game.State.Open
                 ∧ outbox s' = outbox s ++ gamestate_broadcast s1 game))
     ∧ (Game.state (game_at s game) = Game.State.Prepare →
        let s1 := update_player player (Player.set_prepared true) s in
        ∃ s', onpreparedgame (player, packet) s = Ok None s'
              ∧ (all_prepared s1 game →
                   Game.state (game_at s' game) = Game.State.Running
                   ∧ outbox s' = outbox s
                                   ++ broadcast s' game sp.cmd_startgame)
              ∧ (¬ all_prepared s1 game →
                   Game.state (game_at s' game) = Game.State.Prepare
                   ∧ outbox s' = outbox s)))
  ∧ (∀ event s',
       run_once unserialize event s = Ok () s' →
       (Game.state (game_at s game) = Game.State.Open →
        Game.state (game_at s' game) = Game.State.Prepare →
        ∃ player packet,
          received unserialize s event player packet
          ∧ ((pc.body packet = pc.cmd_toggleready
              ∧ Player.game (player_at s player) = Some game
              ∧ all_ready s' game)
             ∨ (∃ pk, pc.body packet = pc.cmd_joingame pk
                      ∧ join_accepted s player pk game
                      ∧ Player.protocol (player_at s player) = 0%Z
                      ∧ Game.is_full (game_at s' game) = true)))
       ∧ (Game.state (game_at s game) ≠ Game.State.Running →
          Game.state (game_at s' game) = Game.State.Running →
          ∃ player packet,
            received unserialize s event player packet
            ∧ pc.body packet = pc.cmd_preparedgame
            ∧ Player.game (player_at s player) = Some game
            ∧ all_prepared s' game)).
Proof.
  intros Hbounded. split.
  { intros player packet Hgame.
    exact (handshake_by_handlers s player packet game Hgame Hbounded). }
  intros event s' Hrun.
  destruct (run_once_progress event s s' Hrun)
    as [Hsame|(player & packet & r' & Hreceived & Hcases)].
  { split.
    - intros Hopen Hprepare. destruct (Hsame game); congruence.
    - intros Hnot Hrunning. destruct (Hsame game); congruence. }
  destruct Hcases as [[Hbody Hhandler]|[[[pk Hbody] Hhandler]|[Hbody Hhandler]]].
  - destruct (ontoggleready_states s player packet r' s' game Hhandler
                Hbounded) as [Hsame|(Hgame & _ & _ & Hready)].
    + split; intros; congruence.
    + split.
      * intros _ _. exists player, packet. split; [done|]. left. by split_and!.
      * intros Hnot Hrunning.
        destruct (ontoggleready_states s player packet r' s' game Hhandler
                    Hbounded) as [?|(_ & _ & ? & _)]; congruence.
  - destruct (onjoingame_states s player packet pk r' s' game Hbody Hhandler)
      as [Hsame|(Hacc & Hproto & Hfull & Hprepare)].
    + split; intros; congruence.
    + split.
      * intros _ _. exists player, packet. split; [done|]. right.
        exists pk. by split_and!.
      * intros; congruence.
  - destruct (onpreparedgame_states s player packet r' s' game Hhandler
                Hbounded) as [Hsame|(Hgame & Hrunning & Hall)].
    + split; intros; congruence.
    + split.
      * intros; congruence.
      * intros _ _. exists player, packet. by split_and!.
Qed.

End handshake.

(** "A" and "B" are in the lobby of game 1 and "A" is ready; "B" toggles
    ready. The handler puts the game into Prepare, and the turn of the loop
    that does so is one for a ready-toggle or for a join. *)
Lemma ready_then_prepared_handshake_witness :
  let s := state_after (lobby_events ++ [receive_event 1 [Byte.x03]]) in
  let event := receive_event 2 [Byte.x04] in
  let s' := state_after (lobby_events ++ [receive_event 1 [Byte.x03]; event]) in
  (known_player s 2 = Some 2 ∧ Player.game (player_at s 2) = Some 1
   ∧ Game.state (game_at s 1) = Game.State.Open)
  ∧ (∃ s1, ontoggleready (2, plain_packet "B" pc.cmd_toggleready) s = Ok None s1
           ∧ Game.state (game_at s1 1) = Game.State.Prepare)
  ∧ (∃ player packet,
       received example_codec s event player packet
       ∧ ((pc.body packet = pc.cmd_toggleready
           ∧ Player.game (player_at s player) = Some 1
           ∧ all_ready s' 1)
          ∨ (∃ pk, pc.body packet = pc.cmd_joingame pk
                   ∧ join_accepted s player pk 1
                   ∧ Player.protocol (player_at s player) = 0%Z
                   ∧ Game.is_full (game_at s' 1) = true))).
Proof.
  intros s event s'. split; [split_and!; vm_compute; reflexivity|].
  destruct (ready_then_prepared_handshake example_codec s 1)
    as [Hhandlers Hsteps].
  - split; vm_compute; [reflexivity|discriminate].
  - split.
    + destruct (Hhandlers 2 (plain_packet "B" pc.cmd_toggleready))
        as [Htoggle _]; [vm_compute; reflexivity|].
      destruct Htoggle as (s1 & Hrun & Hall & _); [vm_compute; reflexivity|].
      exists s1. split; [exact Hrun|]. apply Hall.
      repeat constructor; vm_compute; reflexivity.
    + destruct (Hsteps event s') as [Hprepare _]; [vm_compute; reflexivity|].
      apply Hprepare; vm_compute; reflexivity.
Defined.

(** Why the game has to be the one on record for the player:
    [oncreategame] does not ask whether the player is in a game already.
    "B" is ready in game 1, and "A", who created game 1, has created game
    3 since, which is the game of "A" from then on. When "A" toggles
    ready, every member of game 1 is ready and game 1 stays Open; game 3,
    with "A" alone, goes to Prepare. *)
Example member_of_two_games_toggles_for_the_second :
  let s := state_after (lobby_events ++ [receive_event 2 [Byte.x04];
                                         receive_event 1 [Byte.x0a]]) in
  let event := receive_event 1 [Byte.x03] in
  let s' := state_of (run_once example_codec event s) in
  games s = [1; 3]
  ∧ Game.players (game_at s 1) = [0; 2]
  ∧ Player.game (player_at s 0) = Some 3
  ∧ Game.state (game_at s 1) = Game.State.Open
  ∧ Game.state (game_at s 3) = Game.State.Open
  ∧ returns (run_once example_codec event s) = true
  ∧ Game.players (game_at s' 1) = [0; 2]
  ∧ Player.ready (player_at s' 0) = true
  ∧ Player.ready (player_at s' 2) = true
  ∧ Game.state (game_at s' 1) = Game.State.Open
  ∧ Game.state (game_at s' 3) = Game.State.Prepare.
Proof. intros s event s'. split_and!; vm_compute; reflexivity. Qed.
